(** * MindGames: the problem-chain generation engine

    A shallow embedding of [src/lib/problem-generator] (operand search,
    problem construction, operation selection, the fallback ladder, chain
    and worksheet assembly, the utilities [getTotalProblems] and
    [sumOfDigits]) and of the answer bookkeeping of
    [src/contexts/GameContext.tsx] that consumes its worksheets, together
    with the properties stated for them.

    Numbers.  The configuration fields and every value flowing through a
    chain are integers (the presets and the UI only ever supply integers),
    so a JavaScript [number] is embedded as [Z].  Sums, differences and
    products of integers are exact in the source as long as they are safe
    integers (at most [2^53 - 1] in magnitude); what is stated about the
    arithmetic of a problem is stated for safe integers.  The quotient
    [value / operand] of [calculateResult] can leave the integers; it is
    embedded as an optional integer, see [calculateResult] below.

    Randomness.  [Math.random()] is the only effect of the module.  It is
    embedded as an explicit random source threaded through every function:
    a tape of draws and a cursor.  A draw is the numerator [k] of the
    double [k / 2^53], a number in [[0,1)].  The product of a draw with
    another number is rounded as the multiplication of two doubles rounds
    it, see [roundToDouble]. *)

From Stdlib Require Import ZArith Ascii String List Bool Lia Permutation Sorted.
Import ListNotations.
Open Scope Z_scope.

(** ** Data model ([src/types/index.ts]) *)

Inductive Operation : Type := add | subtract | multiply | divide.

Inductive OperationFrequency : Type :=
  never | rare | normal | often | very_often.

Record OperationConfig : Type := {
  enabled : bool;
  frequency : OperationFrequency;
  minValue : Z;
  maxValue : Z
}.

(** The object [{add, subtract, multiply, divide}] holding one value per
    operation; [config.operations[op]] and [config.operationMix[op]] index
    it by the operation. *)
Record PerOperation (A : Type) : Type := {
  ofAdd : A;
  ofSubtract : A;
  ofMultiply : A;
  ofDivide : A
}.
Arguments ofAdd {A} _.
Arguments ofSubtract {A} _.
Arguments ofMultiply {A} _.
Arguments ofDivide {A} _.

Definition lookup {A : Type} (r : PerOperation A) (op : Operation) : A :=
  match op with
  | add => ofAdd r
  | subtract => ofSubtract r
  | multiply => ofMultiply r
  | divide => ofDivide r
  end.

Definition OperationMix : Type := PerOperation Z.

(** The fields of [GameConfig] read by the generator.  The remaining ones
    (difficultyLevel, notationStyle, showSumOfDigits, showResultLines,
    decorativeCharacter, timeLimit) only drive the display. *)
Record GameConfig : Type := {
  maxResult : Z;
  chainLength : Z;
  chainCount : Z;
  operations : PerOperation OperationConfig;
  operationMix : OperationMix;
  allowNegativeResults : bool
}.

Record Problem : Type := {
  problemId : string;
  startValue : Z;
  operation : Operation;
  operand : Z;
  result : Z
}.

Record ProblemChain : Type := {
  chainId : string;
  problems : list Problem;
  startingNumber : Z
}.

(** [createdAt] (the wall-clock time of the call) is left out. *)
Record Worksheet : Type := {
  worksheetId : string;
  chains : list ProblemChain;
  config : GameConfig
}.

Definition DEFAULT_CONFIG : GameConfig := {|
  maxResult := 100;
  chainLength := 6;
  chainCount := 5;
  operations := {|
    ofAdd := {| enabled := true; frequency := normal; minValue := 1; maxValue := 20 |};
    ofSubtract := {| enabled := true; frequency := normal; minValue := 1; maxValue := 20 |};
    ofMultiply := {| enabled := true; frequency := normal; minValue := 2; maxValue := 10 |};
    ofDivide := {| enabled := true; frequency := normal; minValue := 2; maxValue := 10 |}
  |};
  operationMix := {| ofAdd := 40; ofSubtract := 40; ofMultiply := 10; ofDivide := 10 |};
  allowNegativeResults := false
|}.

(** ** The random source *)

(** Denominator of a draw: [Math.random()] returns [k / RAND_DEN] with
    [0 <= k < RAND_DEN]. *)
Definition RAND_DEN : Z := 2 ^ 53.

Record RNG : Type := {
  tape : nat -> Z;
  cursor : nat
}.

(** Computations that consume draws. *)
Definition Rand (A : Type) : Type := RNG -> A * RNG.

Definition ret {A : Type} (a : A) : Rand A := fun s => (a, s).

Definition bind {A B : Type} (m : Rand A) (k : A -> Rand B) : Rand B :=
  fun s => let (a, s') := m s in k a s'.

Notation "x <- m ;; k" := (bind m (fun x => k))
  (at level 61, m at next level, right associativity).

(** [Math.random()]: the next draw of the tape, brought into
    [[0, RAND_DEN)], and the cursor advanced. *)
Definition random : Rand Z :=
  fun s => (tape s (cursor s) mod RAND_DEN,
            {| tape := tape s; cursor := S (cursor s) |}).

(** The integer nearest to [m] among the integers of at most 53
    significant bits, a tie going to the even significand.  The exact
    product of the doubles [k / 2^53] and [n] is [k * n / 2^53]; the double
    that the multiplication returns is [roundToDouble (k * n) / 2^53]. *)
Definition roundToDouble (m : Z) : Z :=
  let a := Z.abs m in
  let e := Z.max 0 (Z.log2 a - 52) in
  let q := a / 2 ^ e in
  let r := a mod 2 ^ e in
  let q' :=
    if 2 * r <? 2 ^ e then q
    else if 2 ^ e <? 2 * r then q + 1
    else if Z.even q then q else q + 1 in
  Z.sgn m * (q' * 2 ^ e).

(** The digit [d] of a base-36 numeral, [0-9a-z]. *)
Definition digit36 (d : Z) : ascii :=
  if d <? 10 then ascii_of_nat (Z.to_nat (48 + d))
  else ascii_of_nat (Z.to_nat (87 + d)).

(** The first [n] base-36 digits of the fraction [k / RAND_DEN], stopping
    where the expansion ends.  This is what [toString(36)] prints after
    ["0."] for a draw whose expansion ends within these digits (one half is
    ["0.i"]); on longer expansions the engines print the shortest digits
    that identify the double and round the last one, which this expansion
    does not follow. *)
Fixpoint fractionDigits36 (n : nat) (k : Z) : string :=
  match n with
  | O => EmptyString
  | S n' =>
      if k =? 0 then EmptyString
      else String (digit36 (k * 36 / RAND_DEN))
                  (fractionDigits36 n' (k * 36 mod RAND_DEN))
  end.

(** [Math.random().toString(36).substring(2, 11)]: the text after ["0."],
    at most nine characters. *)
Definition generateId : Rand string :=
  k <- random ;; ret (fractionDigits36 9 k).

(** [Math.floor(Math.random() * (max - min + 1)) + min]: the floor of the
    rounded product. *)
Definition randomInt (min max : Z) : Rand Z :=
  k <- random ;;
  ret (roundToDouble (k * (max - min + 1)) / RAND_DEN + min).

(** [const random = Math.random() * 100] on the draw [k / RAND_DEN]: the
    numerator of the rounded product over [RAND_DEN]. *)
Definition percentOfDraw (k : Z) : Z := roundToDouble (k * 100).

(** [random < cumulative] *)
Definition percentBelow (k cumulative : Z) : bool :=
  percentOfDraw k <? cumulative * RAND_DEN.

(** The walk of [selectOperationByMix] on a given draw. *)
Definition selectByDraw (mix : OperationMix) (k : Z) : Operation :=
  let cumulative := 0 in
  let cumulative := cumulative + ofAdd mix in
  if percentBelow k cumulative then add else
  let cumulative := cumulative + ofSubtract mix in
  if percentBelow k cumulative then subtract else
  let cumulative := cumulative + ofMultiply mix in
  if percentBelow k cumulative then multiply else
  divide.

Definition selectOperationByMix (mix : OperationMix) : Rand Operation :=
  k <- random ;; ret (selectByDraw mix k).

(** ** Operand search *)

(** The integers [lo, lo+1, ..., hi], the values taken by the counter of
    [for (let d = lo; d <= hi; d++)]. *)
Definition range (lo hi : Z) : list Z :=
  map (fun i => lo + Z.of_nat i) (seq 0 (Z.to_nat (hi - lo + 1))).

(** The test of the divide loop on one candidate [d]:
    [currentValue % d === 0] (the remainder by zero is NaN and never equal
    to 0), then [result >= 1 && result <= maxResult] for the exact quotient
    [result = currentValue / d]. *)
Definition validDivisor (currentValue maxResult d : Z) : bool :=
  negb (d =? 0) && (Z.rem currentValue d =? 0) &&
  (1 <=? Z.quot currentValue d) && (Z.quot currentValue d <=? maxResult).

Definition validDivisors (currentValue maxResult min max : Z) : list Z :=
  filter (validDivisor currentValue maxResult)
         (range min (Z.min max currentValue)).

(** [None] is the [null] of the source.  In the divide case an index
    outside [validDivisors] would read [undefined]; [randomInt_index] below
    shows that the index is always inside. *)
Definition generateOperand (op : Operation) (currentValue : Z)
    (cfg : GameConfig) : Rand (option Z) :=
  let opConfig := lookup (operations cfg) op in
  let min := minValue opConfig in
  let max := maxValue opConfig in
  match op with
  | add =>
      let maxAddend := maxResult cfg - currentValue in
      if maxAddend <? min then ret None else
      let max := Z.min max maxAddend in
      if max <? min then ret None else
      r <- randomInt min max ;; ret (Some r)
  | subtract =>
      let minResult := if allowNegativeResults cfg then - maxResult cfg else 1 in
      let maxSubtrahend := currentValue - minResult in
      if maxSubtrahend <? min then ret None else
      let max := Z.min max maxSubtrahend in
      if max <? min then ret None else
      r <- randomInt min max ;; ret (Some r)
  | multiply =>
      if currentValue =? 0 then r <- randomInt min max ;; ret (Some r) else
      let maxMultiplier := maxResult cfg / currentValue in
      if maxMultiplier <? min then ret None else
      let max := Z.min max maxMultiplier in
      if max <? min then ret None else
      r <- randomInt min max ;; ret (Some r)
  | divide =>
      if currentValue <=? 0 then ret None else
      let divisors := validDivisors currentValue (maxResult cfg) min max in
      if (length divisors =? 0)%nat then ret None else
      i <- randomInt 0 (Z.of_nat (length divisors) - 1) ;;
      ret (nth_error divisors (Z.to_nat i))
  end.

(** ** Problem construction *)

(** [calculateResult].  Sums, differences and products of integers are
    integers, and the source computes them exactly when they are safe
    integers; beyond [2^53] it rounds them, which [Z] does not.  The
    quotient [value / operand] of safe integers is an integer exactly when
    the operand is not zero and divides the value; every other quotient (a
    fraction, an infinity or NaN) is [None]. *)
Definition calculateResult (value : Z) (op : Operation) (operand : Z)
    : option Z :=
  match op with
  | add => Some (value + operand)
  | subtract => Some (value - operand)
  | multiply => Some (value * operand)
  | divide =>
      if negb (operand =? 0) && (Z.rem value operand =? 0)
      then Some (Z.quot value operand)
      else None
  end.

(** [tryGenerateProblem].  A quotient that is not an integer fails one
    of the three validations whatever its value ([Number.isInteger] at the
    latest), so that case returns [null] at once. *)
Definition tryGenerateProblem (currentValue : Z) (op : Operation)
    (cfg : GameConfig) : Rand (option Problem) :=
  o <- generateOperand op currentValue cfg ;;
  match o with
  | None => ret None
  | Some operand =>
      match calculateResult currentValue op operand with
      | None => ret None
      | Some result =>
          if (result <? 1) && negb (allowNegativeResults cfg) then ret None else
          if maxResult cfg <? result then ret None else
          id <- generateId ;;
          ret (Some {| problemId := id;
                       startValue := currentValue;
                       operation := op;
                       operand := operand;
                       result := result |})
      end
  end.

(** ** Single-problem generation: the fallback ladder *)

(** The loop [for (attempt = 0; attempt < maxAttempts; attempt++)], by the
    number of attempts left. *)
Fixpoint randomAttempts (left : nat) (currentValue : Z) (cfg : GameConfig)
    : Rand (option Problem) :=
  match left with
  | O => ret None
  | S left' =>
      op <- selectOperationByMix (operationMix cfg) ;;
      problem <- tryGenerateProblem currentValue op cfg ;;
      match problem with
      | Some p => ret (Some p)
      | None => randomAttempts left' currentValue cfg
      end
  end.

(** [Array.prototype.sort] is stable; the comparator
    [(a, b) => mix[b] - mix[a]] orders by decreasing percentage. *)
Fixpoint insertByMix (mix : OperationMix) (x : Operation)
    (l : list Operation) : list Operation :=
  match l with
  | [] => [x]
  | y :: l' =>
      if lookup mix x <? lookup mix y then y :: insertByMix mix x l'
      else x :: y :: l'
  end.

Definition sortByMix (mix : OperationMix) (ops : list Operation)
    : list Operation :=
  fold_right (insertByMix mix) [] ops.

(** The loop [for (const op of sortedOps)]. *)
Fixpoint tryEach (ops : list Operation) (currentValue : Z)
    (cfg : GameConfig) : Rand (option Problem) :=
  match ops with
  | [] => ret None
  | op :: ops' =>
      problem <- tryGenerateProblem currentValue op cfg ;;
      match problem with
      | Some p => ret (Some p)
      | None => tryEach ops' currentValue cfg
      end
  end.

Definition withBounds (c : OperationConfig) (lo hi : Z) : OperationConfig :=
  {| enabled := enabled c; frequency := frequency c;
     minValue := lo; maxValue := hi |}.

(** The last-resort configuration: add and subtract narrowed to [1..5]. *)
Definition simpleConfig (cfg : GameConfig) : GameConfig :=
  {| maxResult := maxResult cfg;
     chainLength := chainLength cfg;
     chainCount := chainCount cfg;
     operations :=
       {| ofAdd := withBounds (ofAdd (operations cfg)) 1 5;
          ofSubtract := withBounds (ofSubtract (operations cfg)) 1 5;
          ofMultiply := ofMultiply (operations cfg);
          ofDivide := ofDivide (operations cfg) |};
     operationMix := operationMix cfg;
     allowNegativeResults := allowNegativeResults cfg |}.

Definition generateProblemWith (maxAttempts : Z) (currentValue : Z)
    (cfg : GameConfig) : Rand (option Problem) :=
  let operations := [add; subtract; multiply; divide] in
  r <- randomAttempts (Z.to_nat maxAttempts) currentValue cfg ;;
  match r with
  | Some p => ret (Some p)
  | None =>
      let sortedOps := sortByMix (operationMix cfg) operations in
      r <- tryEach sortedOps currentValue cfg ;;
      match r with
      | Some p => ret (Some p)
      | None =>
          addProblem <- tryGenerateProblem currentValue add (simpleConfig cfg) ;;
          match addProblem with
          | Some p => ret (Some p)
          | None =>
              subProblem <- tryGenerateProblem currentValue subtract (simpleConfig cfg) ;;
              match subProblem with
              | Some p => ret (Some p)
              | None => ret None
              end
          end
      end
  end.

(** [generateProblem] with the default [maxAttempts = 20], the only way
    the module calls it. *)
Definition generateProblem (currentValue : Z) (cfg : GameConfig)
    : Rand (option Problem) :=
  generateProblemWith 20 currentValue cfg.

(** ** Chain assembly *)

Definition goodStarts : list Z :=
  [12; 18; 20; 24; 30; 36; 40; 48; 60; 72; 80; 90; 100].

(** The doubles written [0.1] and [0.4] are [TENTH / 2^55] and
    [TENTH / 2^53]. *)
Definition TENTH : Z := 3602879701896397.

(** [Math.floor(maxResult * 0.1)] and [Math.floor(maxResult * 0.4)] as the
    source computes them: the floors of the rounded products. *)
Definition floorTimesTenth (m : Z) : Z :=
  roundToDouble (m * TENTH) / 2 ^ 55.

Definition floorTimesFourTenths (m : Z) : Z :=
  roundToDouble (m * TENTH) / 2 ^ 53.

(** The starting value.  [n <= maxResult / 2] is [2 * n <= maxResult];
    [Math.floor(maxResult * 0.1)] and [Math.floor(maxResult * 0.4)] are the
    floors of [maxResult / 10] and [4 * maxResult / 10], with which
    [floorTimesTenth] and [floorTimesFourTenths] agree up to [2^50]
    ([start_range_floors]). *)
Definition chooseStart (cfg : GameConfig) : Rand Z :=
  let hasHighMultDiv :=
    50 <=? ofMultiply (operationMix cfg) + ofDivide (operationMix cfg) in
  if hasHighMultDiv then
    let filteredStarts := filter (fun n => 2 * n <=? maxResult cfg) goodStarts in
    if (0 <? length filteredStarts)%nat then
      idx <- randomInt 0 (Z.of_nat (length filteredStarts) - 1) ;;
      let start := nth (Z.to_nat idx) filteredStarts 0 in
      randomInt start start
    else
      randomInt 10 (Z.min 50 (maxResult cfg / 3))
  else
    randomInt (Z.max 5 (maxResult cfg / 10))
              (Z.min (maxResult cfg * 4 / 10) 100).

(** The growth loop [for (i = 0; i < chainLength; i++)], by the number of
    iterations left; [None] is the [return null] inside the loop. *)
Fixpoint growChain (left : nat) (cfg : GameConfig) (currentValue : Z)
    (acc : list Problem) : Rand (option (list Problem)) :=
  match left with
  | O => ret (Some acc)
  | S left' =>
      problem <- generateProblem currentValue cfg ;;
      match problem with
      | None =>
          if (3 <=? length acc)%nat then ret (Some acc) else ret None
      | Some p => growChain left' cfg (result p) (acc ++ [p])
      end
  end.

Definition generateChain (cfg : GameConfig) : Rand (option ProblemChain) :=
  currentValue <- chooseStart cfg ;;
  let startingNumber := currentValue in
  grown <- growChain (Z.to_nat (chainLength cfg)) cfg currentValue [] ;;
  match grown with
  | None => ret None
  | Some problems =>
      if (length problems =? 0)%nat then ret None else
      id <- generateId ;;
      ret (Some {| chainId := id;
                   problems := problems;
                   startingNumber := startingNumber |})
  end.

(** ** Worksheet assembly *)

(** The loop [while (chains.length < chainCount && attempts < maxAttempts)],
    by the attempts left, [maxAttempts - attempts]; it returns the chains
    and the number of attempts made. *)
Fixpoint assemble (left : nat) (cfg : GameConfig)
    (chains : list ProblemChain) (attempts : Z)
    : Rand (list ProblemChain * Z) :=
  match left with
  | O => ret (chains, attempts)
  | S left' =>
      if Z.of_nat (length chains) <? chainCount cfg then
        chain <- generateChain cfg ;;
        let chains :=
          match chain with
          | Some c =>
              if (3 <=? length (problems c))%nat then chains ++ [c] else chains
          | None => chains
          end in
        assemble left' cfg chains (attempts + 1)
      else ret (chains, attempts)
  end.

Definition generateWorksheet (cfg : GameConfig) : Rand Worksheet :=
  let maxAttempts := chainCount cfg * 3 in
  r <- assemble (Z.to_nat maxAttempts) cfg [] 0 ;;
  id <- generateId ;;
  ret {| worksheetId := id; chains := fst r; config := cfg |}.

(** A random source whose every draw is [k]. *)
Definition constantSource (k : Z) : RNG :=
  {| tape := fun _ => k; cursor := 0 |}.

(** ** Specification-side notions *)

(** The fixed order in which §4.3 walks the operations. *)
Definition fixedOrder : list Operation := [add; subtract; multiply; divide].

(** The place of an operation in the fixed order. *)
Definition rank (op : Operation) : Z :=
  match op with
  | add => 0
  | subtract => 1
  | multiply => 2
  | divide => 3
  end.

(** The cumulative threshold of an operation: the percentages of the
    operations of the fixed order up to and including it, added up. *)
Definition cumulative (mix : OperationMix) (op : Operation) : Z :=
  fold_right Z.add 0
    (map (lookup mix) (firstn (S (Z.to_nat (rank op))) fixedOrder)).

(** The threshold of [op] exceeds the draw [percentOfDraw k / RAND_DEN] of
    [[0,100)]. *)
Definition exceedsDraw (mix : OperationMix) (k : Z) (op : Operation) : Prop :=
  percentOfDraw k < cumulative mix op * RAND_DEN.

(** The selection of §4.3: [op] is the first operation of the fixed order
    whose cumulative threshold exceeds the draw, divide being the
    catch-all when none of the three before it does. *)
Definition firstExceedingOrDivide (mix : OperationMix) (k : Z)
    (op : Operation) : Prop :=
  (op <> divide -> exceedsDraw mix k op) /\
  (forall op', rank op' < rank op -> ~ exceedsDraw mix k op').

(** [Number.MAX_SAFE_INTEGER] *)
Definition MAX_SAFE_INTEGER : Z := 2 ^ 53 - 1.

(** [Number.isSafeInteger]: an integer that a double holds exactly, as it
    holds its neighbours. *)
Definition safeInteger (z : Z) : Prop := Z.abs z <= MAX_SAFE_INTEGER.


(** A divisor acceptable to the divide contract of §4.1. *)
Definition acceptableDivisor (currentValue maxResult min max d : Z) : Prop :=
  min <= d <= Z.min max currentValue /\
  currentValue mod d = 0 /\
  1 <= currentValue / d <= maxResult.


(** Every one of the [n] generation steps from [currentValue] succeeds. *)
Fixpoint allStepsSucceed (n : nat) (cfg : GameConfig) (currentValue : Z)
    (s : RNG) : bool :=
  match n with
  | O => true
  | S n' =>
      match generateProblem currentValue cfg s with
      | (Some p, s') => allStepsSucceed n' cfg (result p) s'
      | (None, _) => false
      end
  end.

(** ** Predicates used in the proofs *)

(** The lowest result subtraction may reach. *)
Definition minResultOf (cfg : GameConfig) : Z :=
  if allowNegativeResults cfg then - maxResult cfg else 1.

Definition operandSound (op : Operation) (cv : Z) (cfg : GameConfig)
    (d : Z) : Prop :=
  let oc := lookup (operations cfg) op in
  match op with
  | add => minValue oc <= d <= Z.min (maxValue oc) (maxResult cfg - cv)
  | subtract =>
      minValue oc <= d <= Z.min (maxValue oc) (cv - minResultOf cfg)
  | multiply =>
      cv = 0 \/
      (cv <> 0 /\ minValue oc <= d <= Z.min (maxValue oc) (maxResult cfg / cv))
  | divide =>
      0 < cv /\ In d (validDivisors cv (maxResult cfg) (minValue oc) (maxValue oc))
  end.

(** The facts established for a problem built from [cv] under [cfg]. *)
Record Step (cfg : GameConfig) (cv : Z) (p : Problem) : Prop := {
  step_start : startValue p = cv;
  step_apply :
    calculateResult (startValue p) (operation p) (operand p) = Some (result p);
  step_upper : result p <= maxResult cfg;
  step_lower : allowNegativeResults cfg = false -> 1 <= result p;
  step_divide :
    operation p = divide ->
    0 < cv /\
    In (operand p)
       (validDivisors cv (maxResult cfg)
          (minValue (ofDivide (operations cfg)))
          (maxValue (ofDivide (operations cfg))));
  step_floor :
    allowNegativeResults cfg = true ->
    0 <= maxResult cfg ->
    0 <= minValue (ofAdd (operations cfg)) ->
    0 <= minValue (ofMultiply (operations cfg)) ->
    - maxResult cfg <= cv ->
    - maxResult cfg <= result p
}.

(** Problems built one after the other from [cv]. *)
Fixpoint steps (cfg : GameConfig) (cv : Z) (ps : list Problem) : Prop :=
  match ps with
  | [] => True
  | p :: ps' => Step cfg cv p /\ steps cfg (result p) ps'
  end.

(** A chain accepted into a worksheet: some call of [generateChain]
    returned it, and it has at least three problems. *)
Definition accepted (cfg : GameConfig) (c : ProblemChain) : Prop :=
  (3 <= length (problems c))%nat /\
  exists s0 s1, generateChain cfg s0 = (Some c, s1).

(** ** Sample configurations and runs *)

(** The source whose every draw is one half. *)
Definition halfSource : RNG := constantSource (2 ^ 52).

Definition withMix (cfg : GameConfig) (mix : OperationMix) : GameConfig :=
  {| maxResult := maxResult cfg; chainLength := chainLength cfg;
     chainCount := chainCount cfg; operations := operations cfg;
     operationMix := mix;
     allowNegativeResults := allowNegativeResults cfg |}.

Definition withChainLength (cfg : GameConfig) (n : Z) : GameConfig :=
  {| maxResult := maxResult cfg; chainLength := n;
     chainCount := chainCount cfg; operations := operations cfg;
     operationMix := operationMix cfg;
     allowNegativeResults := allowNegativeResults cfg |}.



(** Two problems per chain. *)
Definition shortConfig : GameConfig := withChainLength DEFAULT_CONFIG 2.

(** Division only. *)
Definition divideOnlyConfig : GameConfig :=
  withMix DEFAULT_CONFIG
    {| ofAdd := 0; ofSubtract := 0; ofMultiply := 0; ofDivide := 100 |}.



Definition noChain : ProblemChain :=
  {| chainId := EmptyString; problems := []; startingNumber := 0 |}.

Definition chainOf (r : option ProblemChain * RNG) : ProblemChain :=
  match fst r with
  | Some c => c
  | None => noChain
  end.

Definition defaultChain : ProblemChain :=
  Eval vm_compute in chainOf (generateChain DEFAULT_CONFIG halfSource).

Definition shortChain : ProblemChain :=
  Eval vm_compute in chainOf (generateChain shortConfig halfSource).

Definition divideChain : ProblemChain :=
  Eval vm_compute in chainOf (generateChain divideOnlyConfig halfSource).


(** A configuration under which a chain dies after one problem. *)
Definition tinyConfig : GameConfig :=
  {| maxResult := 1; chainLength := chainLength DEFAULT_CONFIG;
     chainCount := chainCount DEFAULT_CONFIG;
     operations := operations DEFAULT_CONFIG;
     operationMix := operationMix DEFAULT_CONFIG;
     allowNegativeResults := false |}.

(** ** Properties in the words of the specification *)






(** ** Utilities of the generator ([getTotalProblems], [sumOfDigits]) *)

(** [worksheet.chains.reduce((sum, chain) => sum + chain.problems.length, 0)] *)
Definition getTotalProblems (w : Worksheet) : Z :=
  fold_left (fun sum chain => sum + Z.of_nat (length (problems chain)))
            (chains w) 0.

(** The character of the decimal digit [d]. *)
Definition digitChar (d : Z) : ascii := ascii_of_nat (Z.to_nat (48 + d)).

(** The decimal numeral of [n >= 0] written in front of [acc], at most
    [fuel] digits of it. *)
Fixpoint toStringFuel (fuel : nat) (n : Z) (acc : string) : string :=
  match fuel with
  | O => acc
  | S fuel' =>
      let acc' := String (digitChar (n mod 10)) acc in
      if n <? 10 then acc' else toStringFuel fuel' (n / 10) acc'
  end.

(** [Number.prototype.toString] on a non-negative safe integer (at most
    [2^53 - 1]): its decimal numeral, of at most [log2 n + 1] digits. *)
Definition toString (n : Z) : string :=
  toStringFuel (S (Z.to_nat (Z.log2 n))) n EmptyString.

(** [parseInt(digit, 10)] on a one-character string: the value of a
    decimal digit, [None] (NaN) on any other character. *)
Definition parseInt (c : ascii) : option Z :=
  let code := Z.of_nat (nat_of_ascii c) in
  if (48 <=? code) && (code <=? 57) then Some (code - 48) else None.

(** [sum + parseInt(digit, 10)], NaN being absorbing. *)
Definition addDigit (sum : option Z) (digit : ascii) : option Z :=
  match sum, parseInt digit with
  | Some a, Some b => Some (a + b)
  | _, _ => None
  end.

(** [Math.abs(n).toString().split('').reduce(..., 0)]; [None] is NaN. *)
Definition sumOfDigits (n : Z) : option Z :=
  fold_left addDigit (list_ascii_of_string (toString (Z.abs n))) (Some 0).


(** ** Answer bookkeeping ([src/contexts/GameContext.tsx]) *)

(** [answeredAt] (the wall-clock time of the submission) is left out. *)
Record Answer : Type := {
  answerProblemId : string;
  userAnswer : option Z;
  isCorrect : option bool
}.

(** [Map<string, Answer>]: the entries in insertion order, one per key. *)
Definition AnswerMap : Type := list (string * Answer).

(** [Map.prototype.set]: the value of an existing key is replaced in
    place, a new key is appended. *)
Fixpoint mapSet (key : string) (value : Answer) (m : AnswerMap) : AnswerMap :=
  match m with
  | [] => [(key, value)]
  | (k, v) :: m' =>
      if String.eqb k key then (k, value) :: m'
      else (k, v) :: mapSet key value m'
  end.

(** [Map.prototype.get] *)
Fixpoint mapGet (key : string) (m : AnswerMap) : option Answer :=
  match m with
  | [] => None
  | (k, v) :: m' => if String.eqb k key then Some v else mapGet key m'
  end.

(** The search of [SUBMIT_ANSWER]: the chains in order, in each
    [chain.problems.find((p) => p.id === problemId)], the result of the
    first problem found. *)
Fixpoint correctResultIn (cs : list ProblemChain) (id : string) : option Z :=
  match cs with
  | [] => None
  | chain :: cs' =>
      match find (fun p => String.eqb (problemId p) id) (problems chain) with
      | Some problem => Some (result problem)
      | None => correctResultIn cs' id
      end
  end.

(** The [SUBMIT_ANSWER] case of [gameReducer] on the two fields it reads,
    [state.worksheet] and [state.answers]; it returns the new
    [state.answers] and leaves every other field as it is. *)
Definition submitAnswer (worksheet : option Worksheet) (answers : AnswerMap)
    (id : string) (answer : Z) : AnswerMap :=
  match worksheet with
  | None => answers
  | Some w =>
      match correctResultIn (chains w) id with
      | None => answers
      | Some correctResult =>
          let isCorrect := answer =? correctResult in
          mapSet id {| answerProblemId := id;
                       userAnswer := Some answer;
                       isCorrect := Some isCorrect |} answers
      end
  end.

(** [getAnsweredCount]: [state.answers.size] *)
Definition getAnsweredCount (answers : AnswerMap) : Z :=
  Z.of_nat (length answers).

(** [getCorrectCount]: the answers whose [isCorrect] is truthy. *)
Definition getCorrectCount (answers : AnswerMap) : Z :=
  fold_left (fun count kv =>
               match isCorrect (snd kv) with
               | Some true => count + 1
               | _ => count
               end) answers 0.

(** [getTotalProblemsCount] *)
Definition getTotalProblemsCount (worksheet : option Worksheet) : Z :=
  match worksheet with
  | None => 0
  | Some w => getTotalProblems w
  end.

(** [isAllChainsComplete] *)
Definition isAllChainsComplete (worksheet : option Worksheet)
    (answers : AnswerMap) : bool :=
  match worksheet with
  | None => false
  | Some w => getTotalProblems w <=? getAnsweredCount answers
  end.

(** A sequence of submissions [(problemId, answer)] dispatched in order. *)
Definition submitAll (worksheet : option Worksheet) (answers : AnswerMap)
    (submissions : list (string * Z)) : AnswerMap :=
  fold_left (fun a sub => submitAnswer worksheet a (fst sub) (snd sub))
            submissions answers.

(** The identifiers of all the problems of a worksheet. *)
Definition problemIds (w : Worksheet) : list string :=
  flat_map (fun c => map problemId (problems c)) (chains w).

(** All the problems of a worksheet, chain after chain. *)
Definition allProblems (w : Worksheet) : list Problem :=
  flat_map problems (chains w).

(** The submissions that answer every problem of a worksheet with its
    result, in order. *)
Definition correctSubmissions (w : Worksheet) : list (string * Z) :=
  map (fun p => (problemId p, result p)) (allProblems w).

(** An answer recorded as correct. *)
Definition recordedCorrect (kv : string * Answer) : Prop :=
  isCorrect (snd kv) = Some true.

(** A chain of two problems with distinct identifiers, and the worksheet
    made of it. *)
Definition twoProblemsChain : ProblemChain :=
  {| chainId := String "c" EmptyString;
     problems :=
       [ {| problemId := String "a" EmptyString; startValue := 25;
            operation := subtract; operand := 11; result := 14 |};
         {| problemId := String "b" EmptyString; startValue := 14;
            operation := add; operand := 5; result := 19 |} ];
     startingNumber := 25 |}.

Definition twoProblems : Worksheet :=
  {| worksheetId := String "w" EmptyString;
     chains := [twoProblemsChain];
     config := DEFAULT_CONFIG |}.

(** [a] may stand before [b] in the fallback order: a larger percentage,
    or the same percentage and an earlier place in the fixed order. *)
Definition priorityBefore (mix : OperationMix) (a b : Operation) : Prop :=
  lookup mix b < lookup mix a \/
  (lookup mix b = lookup mix a /\ rank a < rank b).

(** ** Values from which the fallback ladder always finds a problem *)


(** * Proofs *)

(** ** The embedding on concrete inputs *)

(** Equal percentages keep the order add, subtract, multiply, divide. *)
Example sortByMix_stable :
  sortByMix {| ofAdd := 25; ofSubtract := 50; ofMultiply := 25; ofDivide := 50 |}
            [add; subtract; multiply; divide]
  = [subtract; divide; add; multiply].
Proof. reflexivity. Qed.

(** The draw one half is ["0.i"] in base 36. *)
Example generateId_half : fst (generateId halfSource) = String "i" EmptyString.
Proof. reflexivity. Qed.

(** On bounds the wrong way round [randomInt 5 2] answers 3, 4 or 5. *)
Example randomInt_inverted :
  fst (randomInt 5 2 (constantSource 0)) = 5 /\
  fst (randomInt 5 2 (constantSource (2 ^ 53 - 1))) = 3.
Proof. split; reflexivity. Qed.

(** Past [2^53] every other integer is a double; halfway between two
    doubles the one with the even significand is taken. *)
Example roundToDouble_ties :
  roundToDouble (2 ^ 53 - 1) = 2 ^ 53 - 1 /\
  roundToDouble (2 ^ 53 + 1) = 2 ^ 53 /\
  roundToDouble (2 ^ 53 + 3) = 2 ^ 53 + 4 /\
  roundToDouble (- (2 ^ 53 + 3)) = - (2 ^ 53 + 4) /\
  roundToDouble (2 ^ 54 + 1) = 2 ^ 54 /\
  roundToDouble (2 ^ 54 + 3) = 2 ^ 54 + 4.
Proof. repeat split; reflexivity. Qed.

(** On the draw 0.95 the product with 20 rounds to 19, and
    [randomInt 1 20] answers 20. *)
Example randomInt_rounds :
  roundToDouble (8556839292003942 * 20) = 19 * RAND_DEN /\
  fst (randomInt 1 20 (constantSource 8556839292003942)) = 20.
Proof. split; reflexivity. Qed.

(** The percentages of the draws 0.7999999999999999 and 0.7 round to 80
    and to 70: the walk has passed the thresholds 80 and 70. *)
Example selectByDraw_rounds :
  percentOfDraw 7205759403792793 = 80 * RAND_DEN /\
  selectByDraw {| ofAdd := 40; ofSubtract := 40; ofMultiply := 10; ofDivide := 10 |}
               7205759403792793 = multiply /\
  selectByDraw {| ofAdd := 40; ofSubtract := 40; ofMultiply := 0; ofDivide := 20 |}
               7205759403792793 = divide /\
  percentOfDraw 6305039478318694 = 70 * RAND_DEN /\
  selectByDraw {| ofAdd := 70; ofSubtract := 10; ofMultiply := 10; ofDivide := 10 |}
               6305039478318694 = subtract.
Proof. repeat split; reflexivity. Qed.

(** The first step of the default chain on the draw one half: 25 - 11. *)
Example tryGenerateProblem_default :
  fst (tryGenerateProblem 25 subtract DEFAULT_CONFIG halfSource)
  = Some {| problemId := String "i" EmptyString; startValue := 25;
            operation := subtract; operand := 11; result := 14 |}.
Proof. reflexivity. Qed.

(** ** The random source: basic facts *)

Lemma RAND_DEN_pos : 0 < RAND_DEN.
Proof. reflexivity. Qed.

Lemma bind_inv {A B : Type} (m : Rand A) (k : A -> Rand B) s b s' :
  bind m k s = (b, s') ->
  exists a s1, m s = (a, s1) /\ k a s1 = (b, s').
Proof.
  unfold bind. destruct (m s) as [a s1]. intros H. now exists a, s1.
Qed.

Lemma ret_inv {A : Type} (a b : A) s s' :
  ret a s = (b, s') -> a = b /\ s = s'.
Proof. unfold ret. intros H. inversion H. auto. Qed.

(** Peel the binds and returns of a run [m s = (x, s')]. *)
Ltac run_inv H :=
  repeat match type of H with
  | bind _ _ _ = (_, _) =>
      let a := fresh "a" in
      let s1 := fresh "s" in
      let H1 := fresh "Hrun" in
      apply bind_inv in H; destruct H as (a & s1 & H1 & H)
  | ret _ _ = (_, _) =>
      let E := fresh "E" in
      apply ret_inv in H; destruct H as [E H]
  end.

Lemma random_range s k s' :
  random s = (k, s') -> 0 <= k < RAND_DEN.
Proof.
  unfold random. intros H. inversion H; subst.
  apply Z.mod_pos_bound, RAND_DEN_pos.
Qed.

(** ** Rounding to a double *)

Lemma roundToDouble_opp m : roundToDouble (- m) = - roundToDouble m.
Proof.
  unfold roundToDouble. rewrite Z.abs_opp, Z.sgn_opp. cbv zeta. ring.
Qed.

Lemma roundToDouble_0 : roundToDouble 0 = 0.
Proof. reflexivity. Qed.

(** The rounded value of a non-negative integer [m] lies between the
    multiples of [2^e] around [m], at most half of [2^e] away from it,
    where [e] is zero for [m] below [2^53] (which is then kept) and
    [2^(e+52) <= m] otherwise. *)
Lemma roundToDouble_near m :
  0 <= m ->
  exists e,
    0 <= e /\
    (e = 0 \/ 2 ^ (e + 52) <= m) /\
    m < 2 ^ (e + 53) /\
    2 ^ e * (m / 2 ^ e) <= roundToDouble m /\
    2 * roundToDouble m <= 2 * m + 2 ^ e /\
    (e = 0 -> roundToDouble m = m).
Proof.
  intros Hm. destruct (Z.eq_dec m 0) as [->|Hnz].
  { exists 0. cbn. repeat split; lia. }
  assert (Hpos : 0 < m) by lia.
  pose proof (Z.log2_spec m Hpos) as [Hlo Hhi].
  pose proof (Z.log2_nonneg m) as Hl0.
  unfold roundToDouble. rewrite Z.abs_eq by lia. rewrite Z.sgn_pos by lia.
  cbv zeta. set (e := Z.max 0 (Z.log2 m - 52)).
  assert (He : 0 <= e) by (unfold e; lia).
  assert (Hu : 0 < 2 ^ e) by (apply Z.pow_pos_nonneg; lia).
  pose proof (Z.div_mod m (2 ^ e) ltac:(lia)) as Hdm.
  pose proof (Z.mod_pos_bound m (2 ^ e) Hu) as Hmod.
  exists e. split; [exact He |]. split.
  { destruct (Z.eq_dec e 0) as [|Hne]; [now left | right].
    assert (e = Z.log2 m - 52) as -> by (unfold e in *; lia).
    replace (Z.log2 m - 52 + 52) with (Z.log2 m) by lia. exact Hlo. }
  split.
  { apply Z.lt_le_trans with (1 := Hhi).
    apply Z.pow_le_mono_r; unfold e; lia. }
  assert (Hq : 0 <= m / 2 ^ e) by (apply Z.div_pos; lia).
  split; [| split].
  - destruct (2 * (m mod 2 ^ e) <? 2 ^ e); [nia |].
    destruct (2 ^ e <? 2 * (m mod 2 ^ e)); [nia |].
    destruct (Z.even (m / 2 ^ e)); nia.
  - destruct (Z.ltb_spec (2 * (m mod 2 ^ e)) (2 ^ e)); [nia |].
    destruct (Z.ltb_spec (2 ^ e) (2 * (m mod 2 ^ e))); [nia |].
    destruct (Z.even (m / 2 ^ e)); nia.
  - intros E0. rewrite E0. change (2 ^ 0) with 1.
    rewrite Z.mod_1_r, Z.div_1_r. change (2 * 0 <? 1) with true. cbv iota. lia.
Qed.

Lemma roundToDouble_nonneg m : 0 <= m -> 0 <= roundToDouble m.
Proof.
  intros Hm. destruct (roundToDouble_near m Hm) as (e & He & _ & _ & Hlo & _).
  assert (0 < 2 ^ e) by (apply Z.pow_pos_nonneg; lia).
  assert (0 <= m / 2 ^ e) by (apply Z.div_pos; lia). nia.
Qed.

(** Integers below [2^53] in magnitude are doubles. *)
Lemma roundToDouble_exact m : Z.abs m < 2 ^ 53 -> roundToDouble m = m.
Proof.
  intros Hm. assert (Hpos : forall a, 0 <= a < 2 ^ 53 -> roundToDouble a = a).
  { intros a Ha. destruct (roundToDouble_near a (proj1 Ha))
      as (e & He & Hbig & _ & _ & _ & Hex).
    apply Hex. destruct Hbig as [|Hbig]; [assumption |].
    destruct (Z.eq_dec e 0) as [|Hne]; [assumption | exfalso].
    assert (2 ^ 53 <= 2 ^ (e + 52)) by (apply Z.pow_le_mono_r; lia). lia. }
  destruct (Z_le_gt_dec 0 m).
  - apply Hpos. lia.
  - replace m with (- - m) at 1 by lia. rewrite roundToDouble_opp, Hpos; lia.
Qed.

Lemma pow2_split e :
  0 < e ->
  2 ^ (e + 52) = 2 ^ (e - 1) * 2 ^ 53 /\ 2 ^ e = 2 * 2 ^ (e - 1) /\
  0 < 2 ^ (e - 1).
Proof.
  intros He. split; [| split].
  - rewrite <- Z.pow_add_r by lia. f_equal. lia.
  - rewrite <- Z.pow_succ_r by lia. f_equal. lia.
  - apply Z.pow_pos_nonneg; lia.
Qed.

(** The floor of a rounded value over [2^t] is the floor of the value when
    the value is far enough below the next multiple of [2^t]. *)
Lemma rounded_floor m t a :
  0 <= t -> 0 <= a < 2 ^ 52 ->
  a * 2 ^ t <= m ->
  m * (2 ^ 53 + 1) < (a + 1) * 2 ^ t * 2 ^ 53 ->
  roundToDouble m / 2 ^ t = a.
Proof.
  intros Ht Ha Hlo Hhi.
  assert (Hpt : 0 < 2 ^ t) by (apply Z.pow_pos_nonneg; lia).
  assert (Hm : 0 <= m) by nia.
  destruct (roundToDouble_near _ Hm)
    as (e & He & Hbig & _ & Hdown & Hup & Hex).
  symmetry. apply Z.div_unique with (r := roundToDouble m - a * 2 ^ t); [| lia].
  left.
  destruct (Z.eq_dec e 0) as [E0|Hne].
  { rewrite (Hex E0). nia. }
  assert (Hge : 2 ^ (e + 52) <= m)
    by (destruct Hbig; [contradiction | assumption]).
  destruct (pow2_split e ltac:(lia)) as (E1 & E2 & Hp).
  assert (Het : e <= t).
  { destruct (Z_le_gt_dec e t) as [|Hgt]; [assumption | exfalso].
    assert (Hpow : 2 ^ (t + 52) <= 2 ^ (e + 52))
      by (apply Z.pow_le_mono_r; lia).
    rewrite Z.pow_add_r in Hpow by lia. nia. }
  split.
  - assert (Hu : 0 < 2 ^ e) by (apply Z.pow_pos_nonneg; lia).
    assert (Hmul : 2 ^ t = 2 ^ (t - e) * 2 ^ e).
    { rewrite <- Z.pow_add_r by lia. f_equal. lia. }
    assert (Hdiv : a * 2 ^ t / 2 ^ e <= m / 2 ^ e)
      by (apply Z.div_le_mono; lia).
    rewrite Hmul, Z.mul_assoc, Z.div_mul in Hdiv by lia.
    rewrite Hmul. nia.
  - rewrite E1 in Hge. rewrite E2 in Hup. nia.
Qed.

(** The rounded product of a draw with a positive [n] stays below [n]:
    half a unit in the last place of the product is less than [n]. *)
Lemma rounded_draw_below k n :
  0 <= k < RAND_DEN -> 0 < n -> roundToDouble (k * n) < n * RAND_DEN.
Proof.
  intros Hk Hn. assert (Hm : 0 <= k * n) by nia.
  destruct (roundToDouble_near _ Hm) as (e & He & Hbig & _ & _ & Hup & Hex).
  unfold RAND_DEN in *.
  destruct (Z.eq_dec e 0) as [E0|Hne].
  - rewrite (Hex E0). nia.
  - assert (Hge : 2 ^ (e + 52) <= k * n)
      by (destruct Hbig; [contradiction | assumption]).
    destruct (pow2_split e ltac:(lia)) as (E1 & E2 & Hp).
    rewrite E1 in Hge. rewrite E2 in Hup.
    assert (2 ^ (e - 1) < n) by nia.
    nia.
Qed.

Lemma scaled_draw_lower k n :
  0 <= k < RAND_DEN -> 0 <= n -> 0 <= roundToDouble (k * n) / RAND_DEN.
Proof.
  intros Hk Hn. apply Z.div_pos; [| apply RAND_DEN_pos].
  apply roundToDouble_nonneg. nia.
Qed.

Lemma scaled_draw_upper k n :
  0 <= k < RAND_DEN -> 0 < n -> roundToDouble (k * n) / RAND_DEN < n.
Proof.
  intros Hk Hn. apply Z.div_lt_upper_bound; [apply RAND_DEN_pos |].
  pose proof (rounded_draw_below k n Hk Hn). lia.
Qed.

Lemma scaled_draw_neg k n :
  0 <= k < RAND_DEN -> n <= 0 -> n <= roundToDouble (k * n) / RAND_DEN.
Proof.
  intros Hk Hn. apply Z.div_le_lower_bound; [apply RAND_DEN_pos |].
  destruct (Z.eq_dec n 0) as [->|Hnz].
  - rewrite !Z.mul_0_r, roundToDouble_0. lia.
  - replace (k * n) with (- (k * - n)) by ring. rewrite roundToDouble_opp.
    pose proof (rounded_draw_below k (- n) Hk ltac:(lia)). lia.
Qed.

Lemma scaled_draw_nonpos k n :
  0 <= k < RAND_DEN -> n <= 0 -> roundToDouble (k * n) / RAND_DEN <= 0.
Proof.
  intros Hk Hn. apply Z.div_le_upper_bound; [apply RAND_DEN_pos |].
  replace (k * n) with (- (k * - n)) by ring. rewrite roundToDouble_opp.
  pose proof (roundToDouble_nonneg (k * - n) ltac:(nia)). lia.
Qed.


(** On an ordered range [randomInt] stays inside it. *)
Lemma randomInt_range min max s r s' :
  min <= max -> randomInt min max s = (r, s') -> min <= r <= max.
Proof.
  intros Hle H. unfold randomInt in H. run_inv H. subst r.
  apply random_range in Hrun.
  pose proof (scaled_draw_lower a (max - min + 1) Hrun ltac:(lia)).
  pose proof (scaled_draw_upper a (max - min + 1) Hrun ltac:(lia)).
  lia.
Qed.

(** Whatever the bounds, [randomInt] never goes below both [min] and
    [max + 1]. *)
Lemma randomInt_lower min max s r s' :
  randomInt min max s = (r, s') -> Z.min min (max + 1) <= r.
Proof.
  intros H. unfold randomInt in H. run_inv H. subst r.
  apply random_range in Hrun.
  destruct (Z_le_gt_dec 0 (max - min + 1)).
  - pose proof (scaled_draw_lower a (max - min + 1) Hrun ltac:(lia)). lia.
  - pose proof (scaled_draw_neg a (max - min + 1) Hrun ltac:(lia)). lia.
Qed.

(** Whatever the bounds, [randomInt] never goes above both. *)
Lemma randomInt_upper min max s r s' :
  randomInt min max s = (r, s') -> r <= Z.max min max.
Proof.
  intros H. unfold randomInt in H. run_inv H. subst r.
  apply random_range in Hrun.
  destruct (Z_le_gt_dec (max - min + 1) 0).
  - pose proof (scaled_draw_nonpos a (max - min + 1) Hrun ltac:(lia)). lia.
  - pose proof (scaled_draw_upper a (max - min + 1) Hrun ltac:(lia)). lia.
Qed.

(** The index drawn into a non-empty array is inside it. *)
Lemma randomInt_index {A : Type} (l : list A) s i s' :
  l <> [] ->
  randomInt 0 (Z.of_nat (length l) - 1) s = (i, s') ->
  (Z.to_nat i < length l)%nat.
Proof.
  intros Hne H. assert (0 < length l)%nat.
  { destruct l; [congruence | simpl; lia]. }
  apply randomInt_range in H; lia.
Qed.

(** ** The divide loop *)

Lemma In_range lo hi d : In d (range lo hi) <-> lo <= d <= hi.
Proof.
  unfold range. rewrite in_map_iff. split.
  - intros (i & <- & Hi). apply in_seq in Hi. lia.
  - intros Hd. exists (Z.to_nat (d - lo)). split; [lia |].
    apply in_seq. lia.
Qed.

Lemma validDivisor_true cv R d :
  validDivisor cv R d = true <->
  d <> 0 /\ Z.rem cv d = 0 /\ 1 <= Z.quot cv d <= R.
Proof.
  unfold validDivisor.
  rewrite !andb_true_iff, negb_true_iff, Z.eqb_neq, Z.eqb_eq, !Z.leb_le.
  tauto.
Qed.

(** For a positive dividend the test of the loop is the divisor condition
    of the specification. *)
Lemma validDivisor_spec cv R d :
  0 < cv ->
  (validDivisor cv R d = true <->
   cv mod d = 0 /\ 1 <= cv / d <= R).
Proof.
  intros Hcv. rewrite validDivisor_true. split.
  - intros (Hd & Hrem & Hq).
    assert (0 < d).
    { destruct (Z_lt_ge_dec 0 d) as [|Hneg]; [assumption | exfalso].
      assert (Hd' : d < 0) by lia.
      pose proof (Z.quot_opp_r cv d Hd) as Ho.
      assert (0 <= Z.quot cv (- d)) by (apply Z.quot_pos; lia).
      lia. }
    rewrite Z.rem_mod_nonneg in Hrem by lia.
    rewrite Z.quot_div_nonneg in Hq by lia. auto.
  - intros (Hmod & Hq).
    assert (0 < d).
    { destruct (Z_lt_ge_dec 0 d) as [|Hneg]; [assumption | exfalso].
      destruct (Z.eq_dec d 0) as [->|Hd].
      - rewrite Z.div_0_r in Hq. lia.
      - pose proof (Z.div_mod cv d Hd) as Hdm.
        pose proof (Z.mod_neg_bound cv d ltac:(lia)). nia. }
    rewrite Z.rem_mod_nonneg by lia.
    rewrite Z.quot_div_nonneg by lia. repeat split; lia.
Qed.

Lemma In_validDivisors cv R min max d :
  In d (validDivisors cv R min max) <->
  min <= d <= Z.min max cv /\ validDivisor cv R d = true.
Proof.
  unfold validDivisors. rewrite filter_In, In_range. tauto.
Qed.

(** ** Operand search: what a returned operand satisfies *)

Lemma generateOperand_sound op cv cfg s d s' :
  generateOperand op cv cfg s = (Some d, s') -> operandSound op cv cfg d.
Proof.
  unfold generateOperand, operandSound, minResultOf.
  destruct op; cbn [lookup]; intros H.
  - destruct (Z.ltb_spec (maxResult cfg - cv) (minValue (ofAdd (operations cfg))));
      [apply ret_inv in H; destruct H; discriminate |].
    destruct (Z.ltb_spec (Z.min (maxValue (ofAdd (operations cfg))) (maxResult cfg - cv))
                         (minValue (ofAdd (operations cfg))));
      [apply ret_inv in H; destruct H; discriminate |].
    run_inv H. inversion E; subst.
    eapply randomInt_range; eauto.
  - destruct (Z.ltb_spec
                (cv - (if allowNegativeResults cfg then - maxResult cfg else 1))
                (minValue (ofSubtract (operations cfg))));
      [apply ret_inv in H; destruct H; discriminate |].
    destruct (Z.ltb_spec
                (Z.min (maxValue (ofSubtract (operations cfg)))
                   (cv - (if allowNegativeResults cfg then - maxResult cfg else 1)))
                (minValue (ofSubtract (operations cfg))));
      [apply ret_inv in H; destruct H; discriminate |].
    run_inv H. inversion E; subst.
    eapply randomInt_range; eauto.
  - destruct (Z.eqb_spec cv 0); [now left | right].
    destruct (Z.ltb_spec (maxResult cfg / cv) (minValue (ofMultiply (operations cfg))));
      [apply ret_inv in H; destruct H; discriminate |].
    destruct (Z.ltb_spec
                (Z.min (maxValue (ofMultiply (operations cfg))) (maxResult cfg / cv))
                (minValue (ofMultiply (operations cfg))));
      [apply ret_inv in H; destruct H; discriminate |].
    run_inv H. inversion E; subst. split; [assumption |].
    eapply randomInt_range; eauto.
  - destruct (Z.leb_spec cv 0);
      [apply ret_inv in H; destruct H; discriminate |].
    destruct (Nat.eqb_spec
                (length (validDivisors cv (maxResult cfg)
                           (minValue (ofDivide (operations cfg)))
                           (maxValue (ofDivide (operations cfg))))) 0);
      [apply ret_inv in H; destruct H; discriminate |].
    run_inv H. split; [assumption |].
    eapply nth_error_In; eauto.
Qed.



(** ** Problem construction: what a constructed problem satisfies *)

Lemma div_by_negative a b : 0 <= a -> b < 0 -> a / b <= 0.
Proof.
  intros Ha Hb.
  pose proof (Z.div_mod a b ltac:(lia)).
  pose proof (Z.mod_neg_bound a b Hb). nia.
Qed.

Lemma tryGenerateProblem_step cv op cfg s p s' :
  tryGenerateProblem cv op cfg s = (Some p, s') ->
  Step cfg cv p /\ operation p = op.
Proof.
  unfold tryGenerateProblem. intros H. run_inv H.
  destruct a as [d|]; [| apply ret_inv in H; destruct H; discriminate].
  apply generateOperand_sound in Hrun.
  destruct (calculateResult cv op d) as [r|] eqn:Hcalc;
    [| apply ret_inv in H; destruct H; discriminate].
  destruct ((r <? 1) && negb (allowNegativeResults cfg)) eqn:Hlow;
    [apply ret_inv in H; destruct H; discriminate |].
  destruct (Z.ltb_spec (maxResult cfg) r) as [Hhi|Hhi];
    [apply ret_inv in H; destruct H; discriminate |].
  run_inv H. inversion E; subst p; clear E. split; [| reflexivity].
  constructor; cbn [startValue operation operand result].
  - reflexivity.
  - assumption.
  - assumption.
  - intros Hneg. rewrite Hneg in Hlow. cbn in Hlow.
    rewrite andb_true_r in Hlow. apply Z.ltb_ge in Hlow. assumption.
  - intros ->. exact Hrun.
  - intros Hneg HR Hadd Hmul Hcv.
    unfold operandSound, minResultOf in Hrun. rewrite Hneg in Hrun.
    destruct op; cbn [lookup calculateResult] in Hrun, Hcalc.
    + inversion Hcalc; subst r. lia.
    + inversion Hcalc; subst r. lia.
    + inversion Hcalc; subst r.
      destruct Hrun as [-> | [Hnz Hd]]; [lia |].
      destruct (Z_lt_ge_dec cv 0) as [Hc|Hc].
      * pose proof (div_by_negative (maxResult cfg) cv HR Hc).
        assert (d = 0) by lia. subst d. lia.
      * nia.
    + destruct Hrun as [Hpos Hin].
      apply In_validDivisors in Hin. destruct Hin as [_ Hv].
      apply validDivisor_true in Hv.
      destruct (negb (d =? 0) && (Z.rem cv d =? 0)); inversion Hcalc; subst r.
      lia.
Qed.

Lemma Step_simpleConfig cfg cv p :
  Step (simpleConfig cfg) cv p -> Step cfg cv p.
Proof.
  intros [Hs Ha Hu Hl Hd Hf]. constructor; auto.
  intros Hneg HR Hadd Hmul Hcv. apply Hf; auto. cbn. lia.
Qed.

Lemma randomAttempts_step n cv cfg s p s' :
  randomAttempts n cv cfg s = (Some p, s') -> Step cfg cv p.
Proof.
  revert s. induction n as [|n IH]; intros s H; cbn [randomAttempts] in H.
  - apply ret_inv in H. destruct H; discriminate.
  - run_inv H. destruct a0 as [q|].
    + apply ret_inv in H. destruct H as [E _]. inversion E; subst q.
      eapply tryGenerateProblem_step; eauto.
    + eauto.
Qed.

Lemma tryEach_step ops cv cfg s p s' :
  tryEach ops cv cfg s = (Some p, s') -> Step cfg cv p.
Proof.
  revert s. induction ops as [|op ops IH]; intros s H; cbn [tryEach] in H.
  - apply ret_inv in H. destruct H; discriminate.
  - run_inv H. destruct a as [q|].
    + apply ret_inv in H. destruct H as [E _]. inversion E; subst q.
      eapply tryGenerateProblem_step; eauto.
    + eauto.
Qed.

Lemma generateProblem_step cv cfg s p s' :
  generateProblem cv cfg s = (Some p, s') -> Step cfg cv p.
Proof.
  unfold generateProblem, generateProblemWith. intros H. run_inv H.
  destruct a as [q|].
  { apply ret_inv in H. destruct H as [E _]. inversion E; subst q.
    eapply randomAttempts_step; eauto. }
  run_inv H. destruct a as [q|].
  { apply ret_inv in H. destruct H as [E _]. inversion E; subst q.
    eapply tryEach_step; eauto. }
  run_inv H. destruct a as [q|].
  { apply ret_inv in H. destruct H as [E _]. inversion E; subst q.
    apply Step_simpleConfig. eapply tryGenerateProblem_step; eauto. }
  run_inv H. destruct a as [q|].
  { apply ret_inv in H. destruct H as [E _]. inversion E; subst q.
    apply Step_simpleConfig. eapply tryGenerateProblem_step; eauto. }
  apply ret_inv in H. destruct H; discriminate.
Qed.

(** ** Chain assembly: the growth loop *)

Lemma growChain_grows n cfg cv acc s ps s' :
  growChain n cfg cv acc s = (Some ps, s') ->
  exists new,
    ps = acc ++ new /\ steps cfg cv new /\
    (length new <= n)%nat /\
    ((3 <= length ps)%nat \/ length new = n).
Proof.
  revert cv acc s. induction n as [|n IH]; intros cv acc s H;
    cbn [growChain] in H.
  - apply ret_inv in H. destruct H as [E _]. inversion E; subst ps.
    exists []. rewrite app_nil_r. cbn. auto.
  - run_inv H. destruct a as [p|].
    + apply IH in H. destruct H as (new & -> & Hst & Hlen & Hor).
      exists (p :: new). rewrite <- app_assoc. cbn [app steps length].
      apply generateProblem_step in Hrun.
      split; [reflexivity |]. split; [split; assumption |].
      split; [lia |].
      destruct Hor as [Hor|Hor]; [left | right; lia].
      rewrite <- app_assoc in Hor. exact Hor.
    + destruct (Nat.leb_spec 3 (length acc)) as [H3|H3];
        apply ret_inv in H; destruct H as [E _]; [| discriminate].
      inversion E; subst ps. exists []. rewrite app_nil_r. cbn.
      split; [reflexivity |]. split; [exact I |]. split; [lia | left; lia].
Qed.

(** A failing step with fewer than three problems accumulated makes the
    loop return [null]. *)
Lemma growChain_fails_early n cfg cv acc s s' :
  generateProblem cv cfg s = (None, s') ->
  (length acc < 3)%nat ->
  growChain (S n) cfg cv acc s = (None, s').
Proof.
  intros Hgen Hlen. cbn [growChain]. unfold bind. rewrite Hgen.
  destruct (Nat.leb_spec 3 (length acc)); [lia | reflexivity].
Qed.

Lemma growChain_all_succeed n cfg cv acc s :
  allStepsSucceed n cfg cv s = true ->
  exists new s',
    growChain n cfg cv acc s = (Some (acc ++ new), s') /\ length new = n.
Proof.
  revert cv acc s. induction n as [|n IH]; intros cv acc s H;
    cbn [allStepsSucceed growChain] in *.
  - exists [], s. rewrite app_nil_r. auto.
  - unfold bind. destruct (generateProblem cv cfg s) as [[p|] s1]; [| discriminate].
    destruct (IH (result p) (acc ++ [p]) s1 H) as (new & s' & Hg & Hlen).
    exists (p :: new), s'. rewrite Hg, <- app_assoc. cbn. auto.
Qed.

Lemma generateChain_inv cfg s c s' :
  generateChain cfg s = (Some c, s') ->
  exists s0 s1,
    chooseStart cfg s = (startingNumber c, s0) /\
    growChain (Z.to_nat (chainLength cfg)) cfg (startingNumber c) [] s0
      = (Some (problems c), s1) /\
    problems c <> [].
Proof.
  unfold generateChain. intros H. run_inv H.
  destruct a0 as [ps|]; [| apply ret_inv in H; destruct H; discriminate].
  destruct (Nat.eqb_spec (length ps) 0) as [Hz|Hz];
    [apply ret_inv in H; destruct H; discriminate |].
  run_inv H. inversion E; subst c; cbn.
  exists s0, s1. repeat split; auto.
  intros ->. now apply Hz.
Qed.

(** Every chain returned is a run of consecutive steps from its starting
    number, never empty, never longer than the loop allows. *)
Lemma generateChain_steps cfg s c s' :
  generateChain cfg s = (Some c, s') ->
  steps cfg (startingNumber c) (problems c) /\
  problems c <> [] /\
  (length (problems c) <= Z.to_nat (chainLength cfg))%nat /\
  ((3 <= length (problems c))%nat \/
   length (problems c) = Z.to_nat (chainLength cfg)).
Proof.
  intros H. apply generateChain_inv in H.
  destruct H as (s0 & s1 & _ & Hg & Hne).
  apply growChain_grows in Hg. destruct Hg as (new & Hps & Hst & Hlen & Hor).
  cbn in Hps. rewrite <- Hps in *. auto.
Qed.

(** ** Consequences for the problems of a chain *)




(** A property of single steps that does not depend on the value the step
    starts from holds of every problem of a run. *)
Lemma steps_Forall cfg (P : Problem -> Prop) :
  (forall cv p, Step cfg cv p -> P p) ->
  forall cv ps, steps cfg cv ps -> Forall P ps.
Proof.
  intros HP cv ps. revert cv.
  induction ps as [|p ps IH]; intros cv H; constructor; cbn in H.
  - eapply HP, H.
  - eapply IH, H.
Qed.


(** What a divide step guarantees, in the terms of the specification. *)
Lemma Step_divide cfg cv p :
  Step cfg cv p -> operation p = divide ->
  0 < startValue p /\
  acceptableDivisor (startValue p) (maxResult cfg)
    (minValue (ofDivide (operations cfg)))
    (maxValue (ofDivide (operations cfg))) (operand p) /\
  result p = startValue p / operand p /\
  result p * operand p = startValue p.
Proof.
  intros Hp Hop. destruct (step_divide _ _ _ Hp Hop) as [Hpos Hin].
  pose proof (step_apply _ _ _ Hp) as Hcalc.
  rewrite (step_start _ _ _ Hp) in *. rewrite Hop in Hcalc. cbn in Hcalc.
  apply In_validDivisors in Hin. destruct Hin as [Hrange Hv].
  pose proof Hv as Hv'. apply validDivisor_true in Hv'.
  destruct Hv' as (Hd & Hrem & Hq).
  apply (validDivisor_spec _ _ _ Hpos) in Hv. destruct Hv as [Hmod Hdiv].
  assert (Hd0 : 0 < operand p).
  { destruct (Z_lt_ge_dec 0 (operand p)); [assumption | exfalso].
    pose proof (Z.div_mod cv (operand p) Hd).
    pose proof (Z.mod_neg_bound cv (operand p) ltac:(lia)). nia. }
  destruct (negb (operand p =? 0) && (Z.rem cv (operand p) =? 0));
    inversion Hcalc as [Hres].
  rewrite Z.quot_div_nonneg by lia.
  split; [assumption |]. split; [split; [assumption | split; assumption] |].
  split; [reflexivity |].
  pose proof (Z.div_mod cv (operand p) Hd). lia.
Qed.

(** ** The starting value *)




(** ** Worksheet assembly: the retry loop *)

Lemma assemble_inv left cfg chains0 attempts s r s' :
  assemble left cfg chains0 attempts s = (r, s') ->
  exists new,
    fst r = chains0 ++ new /\
    Forall (accepted cfg) new /\
    attempts <= snd r <= attempts + Z.of_nat left /\
    (Z.of_nat (length chains0) <= chainCount cfg ->
     Z.of_nat (length (fst r)) <= chainCount cfg) /\
    (chainCount cfg <= Z.of_nat (length (fst r)) \/
     snd r = attempts + Z.of_nat left).
Proof.
  revert chains0 attempts s.
  induction left as [|left IH]; intros chains0 attempts s H;
    cbn [assemble] in H.
  - apply ret_inv in H. destruct H as [<- _]. exists []. cbn.
    rewrite app_nil_r. repeat split; auto; lia.
  - destruct (Z.ltb_spec (Z.of_nat (length chains0)) (chainCount cfg)) as [Hlt|Hge].
    + run_inv H. apply IH in H.
      destruct H as (new & Hr & Hall & Hatt & Hlen & Hstop).
      destruct a as [c|].
      * destruct (Nat.leb_spec 3 (length (problems c))) as [H3|H3].
        -- exists (c :: new). rewrite Hr, <- app_assoc. cbn [app].
           split; [reflexivity |]. split.
           { constructor; [| assumption]. split; [assumption |]. eauto. }
           split; [lia |]. split.
           { intros _. rewrite Hr, <- app_assoc in Hlen. cbn [app] in Hlen.
             apply Hlen. rewrite length_app. cbn. lia. }
           rewrite Hr, <- app_assoc in Hstop. cbn [app] in Hstop.
           destruct Hstop; [left; assumption | right; lia].
        -- exists new. split; [assumption |]. split; [assumption |].
           split; [lia |]. split; [intros; apply Hlen; lia |].
           destruct Hstop; [left; assumption | right; lia].
      * exists new. split; [assumption |]. split; [assumption |].
        split; [lia |]. split; [intros; apply Hlen; lia |].
        destruct Hstop; [left; assumption | right; lia].
    + apply ret_inv in H. destruct H as [<- _]. exists []. cbn [fst snd].
      rewrite app_nil_r. split; [reflexivity |]. split; [constructor |].
      split; [lia |]. split; [auto |]. left. lia.
Qed.

Lemma generateWorksheet_inv cfg s w s' :
  generateWorksheet cfg s = (w, s') ->
  config w = cfg /\
  exists attempts s1,
    assemble (Z.to_nat (chainCount cfg * 3)) cfg [] 0 s
      = ((chains w, attempts), s1).
Proof.
  unfold generateWorksheet. intros H. run_inv H. subst w. cbn.
  split; [reflexivity |]. destruct a as [cs n]. cbn. eauto.
Qed.

Lemma generateWorksheet_accepted cfg s w s' :
  generateWorksheet cfg s = (w, s') -> Forall (accepted cfg) (chains w).
Proof.
  intros H. apply generateWorksheet_inv in H.
  destruct H as (_ & attempts & s1 & H).
  apply assemble_inv in H. destruct H as (new & Hr & Hall & _).
  cbn in Hr. rewrite Hr. exact Hall.
Qed.


(** ** Bounds, start values and the arithmetic of a step *)




Lemma generateChain_startingNumber cfg s c s' :
  generateChain cfg s = (Some c, s') ->
  exists s0, chooseStart cfg s = (startingNumber c, s0).
Proof.
  intros H. apply generateChain_inv in H.
  destruct H as (s0 & _ & Hstart & _). eauto.
Qed.



(** ** The cumulative walk *)

Lemma cumulative_fixedOrder mix :
  cumulative mix add = ofAdd mix /\
  cumulative mix subtract = ofAdd mix + ofSubtract mix /\
  cumulative mix multiply = ofAdd mix + ofSubtract mix + ofMultiply mix.
Proof.
  split; [| split].
  - change (ofAdd mix + 0 = ofAdd mix). lia.
  - change (ofAdd mix + (ofSubtract mix + 0) = ofAdd mix + ofSubtract mix). lia.
  - change (ofAdd mix + (ofSubtract mix + (ofMultiply mix + 0))
            = ofAdd mix + ofSubtract mix + ofMultiply mix). lia.
Qed.

Lemma rank_injective a b : rank a = rank b -> a = b.
Proof. destruct a, b; cbn; intros H; (reflexivity || discriminate H). Qed.

(** At most one operation is the first whose threshold exceeds the draw. *)
Lemma firstExceedingOrDivide_unique mix k a b :
  firstExceedingOrDivide mix k a -> firstExceedingOrDivide mix k b -> b = a.
Proof.
  intros [Ha Ha'] [Hb Hb'].
  destruct (Z.lt_trichotomy (rank a) (rank b)) as [Hlt | [Heq | Hgt]].
  - exfalso. apply (Hb' a Hlt). apply Ha. intros ->.
    destruct b; cbn [rank] in Hlt; lia.
  - symmetry. now apply rank_injective.
  - exfalso. apply (Ha' b Hgt). apply Hb. intros ->.
    destruct a; cbn [rank] in Hgt; lia.
Qed.

(** ** The claims *)

(** C1 (amended).  [generateChain] returns a chain with fewer than three
    problems only when [chainLength] itself is below three: for
    [chainLength >= 3] every non-null chain has at least three problems,
    and a non-null chain with fewer than three problems has exactly
    [chainLength] problems (no step failed).  A step that fails while
    fewer than three problems are accumulated makes the growth loop, and
    with it [generateChain], return [null]. *)
Theorem generateChain_minimum_length (cfg : GameConfig) :
  (forall s c s',
      generateChain cfg s = (Some c, s') ->
      (3 <= chainLength cfg -> (3 <= length (problems c))%nat) /\
      ((length (problems c) < 3)%nat ->
       Z.of_nat (length (problems c)) = chainLength cfg)) /\
  (forall left cv acc s0 s1,
      generateProblem cv cfg s0 = (None, s1) ->
      (length acc < 3)%nat ->
      growChain (S left) cfg cv acc s0 = (None, s1)) /\
  (forall s v s0 s1,
      chooseStart cfg s = (v, s0) ->
      growChain (Z.to_nat (chainLength cfg)) cfg v [] s0 = (None, s1) ->
      generateChain cfg s = (None, s1)).
Proof.
  split; [| split].
  - intros s c s' H. apply generateChain_steps in H.
    destruct H as (_ & Hne & Hle & Hor).
    assert (0 < length (problems c))%nat
      by (destruct (problems c); [congruence | cbn; lia]).
    split; intros; lia.
  - intros left cv acc s0 s1. apply growChain_fails_early.
  - intros s v s0 s1 Hstart Hgrow. unfold generateChain, bind.
    rewrite Hstart, Hgrow. reflexivity.
Qed.

Lemma generateChain_minimum_length_witness :
  (generateChain DEFAULT_CONFIG halfSource
     = (Some defaultChain, snd (generateChain DEFAULT_CONFIG halfSource)) /\
   3 <= chainLength DEFAULT_CONFIG /\
   (3 <= length (problems defaultChain))%nat) /\
  (generateProblem 1 tinyConfig halfSource
     = (None, snd (generateProblem 1 tinyConfig halfSource)) /\
   growChain 1 tinyConfig 1 [] halfSource
     = (None, snd (generateProblem 1 tinyConfig halfSource))).
Proof.
  split.
  - assert (E : generateChain DEFAULT_CONFIG halfSource
                = (Some defaultChain, snd (generateChain DEFAULT_CONFIG halfSource)))
      by (vm_compute; reflexivity).
    split; [exact E |]. split; [cbn; lia |].
    apply (proj1 (generateChain_minimum_length DEFAULT_CONFIG) _ _ _ E).
    cbn; lia.
  - assert (E : generateProblem 1 tinyConfig halfSource
                = (None, snd (generateProblem 1 tinyConfig halfSource)))
      by (vm_compute; reflexivity).
    split; [exact E |].
    apply (proj1 (proj2 (generateChain_minimum_length tinyConfig)) 0%nat 1 [] _ _ E).
    cbn; lia.
Defined.

(** C1 as stated fails: with [chainLength = 2] the chain returned has two
    problems. *)
Lemma generateChain_short_chain :
  generateChain shortConfig halfSource
    = (Some shortChain, snd (generateChain shortConfig halfSource)) /\
  length (problems shortChain) = 2%nat /\
  ~ (3 <= length (problems shortChain))%nat.
Proof.
  split; [vm_compute; reflexivity |]. split; [reflexivity | cbn; lia].
Qed.







(** The divide facts for the problems of a chain. *)
Lemma generateChain_divide cfg s c s' p :
  generateChain cfg s = (Some c, s') ->
  In p (problems c) -> operation p = divide ->
  0 < startValue p /\
  acceptableDivisor (startValue p) (maxResult cfg)
    (minValue (ofDivide (operations cfg)))
    (maxValue (ofDivide (operations cfg))) (operand p) /\
  result p = startValue p / operand p /\
  result p * operand p = startValue p.
Proof.
  intros H Hp Hop. apply generateChain_steps in H. destruct H as (Hst & _).
  pose proof (steps_Forall cfg
                (fun p => operation p = divide ->
                   0 < startValue p /\
                   acceptableDivisor (startValue p) (maxResult cfg)
                     (minValue (ofDivide (operations cfg)))
                     (maxValue (ofDivide (operations cfg))) (operand p) /\
                   result p = startValue p / operand p /\
                   result p * operand p = startValue p)
                (fun cv q Hq => Step_divide _ _ _ Hq) _ _ Hst) as F.
  rewrite Forall_forall in F. auto.
Qed.



(** How the identifiers of a run collide: [generateId] depends on nothing
    but the draw it consumes. *)
Lemma generateId_same_draw s1 s2 :
  tape s1 (cursor s1) = tape s2 (cursor s2) ->
  fst (generateId s1) = fst (generateId s2).
Proof.
  intros H. unfold generateId, bind, random, ret. cbn. now rewrite H.
Qed.

(** C5 (the code at the failing input).  On a random source that repeats
    its draw, the five chains of the default worksheet all carry the
    identifier ["i"], as do the problems inside each chain: neither the
    chain identifiers nor the problem identifiers are pairwise distinct. *)
Theorem ids_collide_on_repeated_draws :
  let w := fst (generateWorksheet DEFAULT_CONFIG halfSource) in
  length (chains w) = 5%nat /\
  ~ NoDup (map chainId (chains w)) /\
  Forall (fun c => ~ NoDup (map problemId (problems c))) (chains w).
Proof.
  vm_compute. split; [reflexivity |].
  split.
  - intros H. inversion H as [|x l Hnotin _]; subst. apply Hnotin. now left.
  - repeat constructor;
      intros H; inversion H as [|x l Hnotin _]; subst; apply Hnotin; now left.
Qed.






(** C8.  For every mix and every draw, [selectOperationByMix] consumes one
    draw [k], whose percentage [Math.random() * 100] (the rounded product
    [percentOfDraw k] over [RAND_DEN]) lies in [[0,100)], and returns the
    first operation of the fixed order add, subtract, multiply, divide
    whose cumulative threshold exceeds that percentage, divide being the
    catch-all when the thresholds of the three before it do not; no other
    operation answers this description.  It returns an operation on every
    input. *)
Theorem selectOperationByMix_walk (mix : OperationMix) (s : RNG) :
  let k := fst (random s) in
  let op := fst (selectOperationByMix mix s) in
  0 <= percentOfDraw k < 100 * RAND_DEN /\
  snd (selectOperationByMix mix s) = snd (random s) /\
  firstExceedingOrDivide mix k op /\
  (forall op', firstExceedingOrDivide mix k op' -> op' = op).
Proof.
  intros k op.
  assert (Hk : 0 <= k < RAND_DEN)
    by (apply (random_range s k (snd (random s))), surjective_pairing).
  split.
  { unfold percentOfDraw. split.
    - apply roundToDouble_nonneg. lia.
    - apply rounded_draw_below; [exact Hk | lia]. }
  assert (Hrun : selectOperationByMix mix s
                 = (selectByDraw mix k, snd (random s))).
  { unfold selectOperationByMix, bind, ret.
    rewrite (surjective_pairing (random s)). reflexivity. }
  split; [rewrite Hrun; reflexivity |].
  assert (Hop : op = selectByDraw mix k) by (unfold op; rewrite Hrun; reflexivity).
  destruct (cumulative_fixedOrder mix) as (Ca & Cb & Cc).
  assert (Hfirst : firstExceedingOrDivide mix k op).
  { rewrite Hop. unfold firstExceedingOrDivide, exceedsDraw, selectByDraw, percentBelow.
    rewrite Z.add_0_l. cbn [lookup].
    destruct (Z.ltb_spec (percentOfDraw k) (ofAdd mix * RAND_DEN)) as [Ha|Ha].
    { split; [intros _; rewrite Ca; exact Ha |].
      intros op'. destruct op'; cbn [rank]; lia. }
    destruct (Z.ltb_spec (percentOfDraw k)
                ((ofAdd mix + ofSubtract mix) * RAND_DEN)) as [Hb|Hb].
    { split; [intros _; rewrite Cb; exact Hb |].
      intros op'. destruct op'; cbn [rank]; rewrite ?Ca; lia. }
    destruct (Z.ltb_spec (percentOfDraw k)
                ((ofAdd mix + ofSubtract mix + ofMultiply mix) * RAND_DEN))
      as [Hc|Hc].
    { split; [intros _; rewrite Cc; exact Hc |].
      intros op'. destruct op'; cbn [rank]; rewrite ?Ca, ?Cb; lia. }
    split; [congruence |].
    intros op'. destruct op'; cbn [rank]; rewrite ?Ca, ?Cb, ?Cc; lia. }
  split; [exact Hfirst |].
  intros op' Hfirst'. eapply firstExceedingOrDivide_unique; eassumption.
Qed.

Lemma selectOperationByMix_walk_witness :
  firstExceedingOrDivide (operationMix DEFAULT_CONFIG) (fst (random halfSource))
    subtract /\
  subtract = fst (selectOperationByMix (operationMix DEFAULT_CONFIG) halfSource).
Proof.
  assert (F : firstExceedingOrDivide (operationMix DEFAULT_CONFIG)
                (fst (random halfSource)) subtract).
  { split.
    - intros _. vm_compute. reflexivity.
    - intros op' Hr. destruct op'; cbn [rank] in Hr; try lia.
      vm_compute. discriminate. }
  split; [exact F |].
  exact (proj2 (proj2 (proj2
           (selectOperationByMix_walk (operationMix DEFAULT_CONFIG) halfSource)))
           subtract F).
Defined.

(** C9.  Whatever the configuration, also with negative results allowed,
    every divide problem of a chain has its result in [[1, maxResult]] and
    its operand at most its start value. *)
Theorem divide_results_positive cfg s c s' p :
  generateChain cfg s = (Some c, s') ->
  In p (problems c) -> operation p = divide ->
  1 <= result p <= maxResult cfg /\ operand p <= startValue p.
Proof.
  intros H Hp Hop.
  destruct (generateChain_divide _ _ _ _ _ H Hp Hop)
    as (_ & (Hrange & _ & Hq) & Hres & _).
  rewrite Hres. split; [exact Hq | lia].
Qed.

Lemma divide_results_positive_witness :
  generateChain divideOnlyConfig halfSource
    = (Some divideChain, snd (generateChain divideOnlyConfig halfSource)) /\
  1 <= 6 <= maxResult divideOnlyConfig /\ 5 <= 30.
Proof.
  assert (E : generateChain divideOnlyConfig halfSource
              = (Some divideChain, snd (generateChain divideOnlyConfig halfSource)))
    by (vm_compute; reflexivity).
  split; [exact E |].
  apply (divide_results_positive _ _ _ _
           {| problemId := String "i" EmptyString; startValue := 30;
              operation := divide; operand := 5; result := 6 |} E).
  - cbn; tauto.
  - reflexivity.
Defined.

(** C10.  For [chainLength >= 1], a non-null chain has at least
    [min(3, chainLength)] and at most [chainLength] problems, and when no
    generation step fails [generateChain] returns a chain of exactly
    [chainLength] problems. *)
Theorem generateChain_length_bounds (cfg : GameConfig) (s : RNG) :
  1 <= chainLength cfg ->
  (forall c s',
      generateChain cfg s = (Some c, s') ->
      Z.min 3 (chainLength cfg) <= Z.of_nat (length (problems c))
        <= chainLength cfg) /\
  (allStepsSucceed (Z.to_nat (chainLength cfg)) cfg
     (fst (chooseStart cfg s)) (snd (chooseStart cfg s)) = true ->
   exists c s',
     generateChain cfg s = (Some c, s') /\
     Z.of_nat (length (problems c)) = chainLength cfg).
Proof.
  intros Hlen. split.
  - intros c s' H. apply generateChain_steps in H.
    destruct H as (_ & _ & Hle & Hor). lia.
  - intros Hall.
    destruct (growChain_all_succeed _ _ _ [] _ Hall) as (new & s1 & Hg & Hn).
    cbn [app] in Hg.
    unfold generateChain, bind.
    rewrite (surjective_pairing (chooseStart cfg s)), Hg.
    destruct (Nat.eqb_spec (length new) 0) as [Hz|Hz]; [lia |].
    destruct (generateId s1) as [id s2].
    eexists _, s2. split; [reflexivity |]. cbn. lia.
Qed.

Lemma generateChain_length_bounds_witness :
  1 <= chainLength DEFAULT_CONFIG /\
  (generateChain DEFAULT_CONFIG halfSource
     = (Some defaultChain, snd (generateChain DEFAULT_CONFIG halfSource)) /\
   Z.min 3 (chainLength DEFAULT_CONFIG)
     <= Z.of_nat (length (problems defaultChain))
     <= chainLength DEFAULT_CONFIG) /\
  (allStepsSucceed (Z.to_nat (chainLength DEFAULT_CONFIG)) DEFAULT_CONFIG
     (fst (chooseStart DEFAULT_CONFIG halfSource))
     (snd (chooseStart DEFAULT_CONFIG halfSource)) = true /\
   exists c s',
     generateChain DEFAULT_CONFIG halfSource = (Some c, s') /\
     Z.of_nat (length (problems c)) = chainLength DEFAULT_CONFIG).
Proof.
  assert (L : 1 <= chainLength DEFAULT_CONFIG) by (cbn; lia).
  assert (E : generateChain DEFAULT_CONFIG halfSource
              = (Some defaultChain, snd (generateChain DEFAULT_CONFIG halfSource)))
    by (vm_compute; reflexivity).
  assert (A : allStepsSucceed (Z.to_nat (chainLength DEFAULT_CONFIG)) DEFAULT_CONFIG
                (fst (chooseStart DEFAULT_CONFIG halfSource))
                (snd (chooseStart DEFAULT_CONFIG halfSource)) = true)
    by (vm_compute; reflexivity).
  split; [exact L |]. split.
  - split; [exact E |].
    apply (proj1 (generateChain_length_bounds DEFAULT_CONFIG halfSource L) _ _ E).
  - split; [exact A |].
    apply (proj2 (generateChain_length_bounds DEFAULT_CONFIG halfSource L) A).
Defined.


(** * Further properties of the generator *)













(** ** Forward progress of the fallback ladder *)









(** ** The starting number *)

(** X21.  For [0 <= maxResult <= 2^50] the two floors of the start range,
    [Math.floor(maxResult * 0.1)] and [Math.floor(maxResult * 0.4)] with
    the products rounded to doubles, are the floors of [maxResult / 10] and
    of [4 * maxResult / 10]. *)
Theorem start_range_floors (m : Z) :
  0 <= m <= 2 ^ 50 ->
  floorTimesTenth m = m / 10 /\
  floorTimesFourTenths m = m * 4 / 10.
Proof.
  intros Hm. unfold floorTimesTenth, floorTimesFourTenths, TENTH. split.
  - pose proof (Z.div_mod m 10 ltac:(lia)) as Hdm.
    pose proof (Z.mod_pos_bound m 10 ltac:(lia)) as Hmod.
    apply rounded_floor; lia.
  - pose proof (Z.div_mod (m * 4) 10 ltac:(lia)) as Hdm.
    pose proof (Z.mod_pos_bound (m * 4) 10 ltac:(lia)) as Hmod.
    apply rounded_floor; lia.
Qed.

Lemma start_range_floors_witness :
  0 <= maxResult DEFAULT_CONFIG <= 2 ^ 50 /\
  floorTimesTenth (maxResult DEFAULT_CONFIG) = 10 /\
  floorTimesFourTenths (maxResult DEFAULT_CONFIG) = 40.
Proof.
  assert (H : 0 <= maxResult DEFAULT_CONFIG <= 2 ^ 50)
    by (split; vm_compute; discriminate).
  split; [exact H |].
  exact (start_range_floors (maxResult DEFAULT_CONFIG) H).
Defined.

Lemma goodStarts_from_12 : Forall (fun n => 12 <= n) goodStarts.
Proof. unfold goodStarts. repeat constructor; lia. Qed.

(** With a candidate of [goodStarts] fitting, the start is one of them. *)
Lemma chooseStart_good cfg s v s' :
  (50 <=? ofMultiply (operationMix cfg) + ofDivide (operationMix cfg)) = true ->
  filter (fun n => 2 * n <=? maxResult cfg) goodStarts <> [] ->
  chooseStart cfg s = (v, s') ->
  In v goodStarts /\ 2 * v <= maxResult cfg.
Proof.
  intros Hhigh Hne. unfold chooseStart. rewrite Hhigh.
  set (fs := filter (fun n => 2 * n <=? maxResult cfg) goodStarts) in *.
  assert (Hlen : (0 < length fs)%nat)
    by (destruct fs; [congruence | cbn; lia]).
  destruct (Nat.ltb_spec 0 (length fs)) as [_|]; [| lia].
  intros H. run_inv H.
  pose proof (randomInt_index fs _ _ _ Hne Hrun) as Hidx.
  pose proof (nth_In fs 0 Hidx) as Hin.
  apply randomInt_range in H; [| lia].
  assert (v = nth (Z.to_nat a) fs 0) by lia. subst v.
  unfold fs in Hin. apply filter_In in Hin. destruct Hin as [Hg Hfit].
  apply Z.leb_le in Hfit. auto.
Qed.

Lemma chooseStart_range cfg s v s' :
  10 <= maxResult cfg -> chooseStart cfg s = (v, s') ->
  1 <= v <= maxResult cfg.
Proof.
  intros HR H.
  destruct (50 <=? ofMultiply (operationMix cfg) + ofDivide (operationMix cfg))
    eqn:Hhigh.
  - destruct (filter (fun n => 2 * n <=? maxResult cfg) goodStarts) as [|x fs] eqn:Hfs.
    + unfold chooseStart in H. rewrite Hhigh, Hfs in H. cbn [length Nat.ltb Nat.leb] in H.
      pose proof (randomInt_lower _ _ _ _ _ H).
      pose proof (randomInt_upper _ _ _ _ _ H).
      assert (0 <= maxResult cfg / 3) by (apply Z.div_pos; lia).
      assert (maxResult cfg / 3 <= maxResult cfg)
        by (apply Z.div_le_upper_bound; lia).
      lia.
    + destruct (chooseStart_good cfg s v s' Hhigh) as [Hin Hfit]; auto.
      { rewrite Hfs. discriminate. }
      pose proof goodStarts_from_12 as G. rewrite Forall_forall in G.
      specialize (G v Hin). lia.
  - unfold chooseStart in H. rewrite Hhigh in H.
    pose proof (randomInt_lower _ _ _ _ _ H).
    pose proof (randomInt_upper _ _ _ _ _ H).
    assert (0 <= maxResult cfg * 4 / 10) by (apply Z.div_pos; lia).
    assert (maxResult cfg * 4 / 10 <= maxResult cfg)
      by (apply Z.div_le_upper_bound; lia).
    assert (maxResult cfg / 10 <= maxResult cfg)
      by (apply Z.div_le_upper_bound; lia).
    lia.
Qed.



Lemma fold_total_bounds (lo hi : Z) (cs : list ProblemChain) (init : Z) :
  Forall (fun c => lo <= Z.of_nat (length (problems c)) <= hi) cs ->
  init + lo * Z.of_nat (length cs)
    <= fold_left (fun sum chain => sum + Z.of_nat (length (problems chain))) cs init
    <= init + hi * Z.of_nat (length cs).
Proof.
  revert init. induction cs as [|c cs IH]; intros init H; cbn [fold_left length].
  - lia.
  - inversion H as [|x l Hc Hcs]; subst.
    specialize (IH (init + Z.of_nat (length (problems c))) Hcs). lia.
Qed.








(** X9.  The starting number of a chain: with [maxResult >= 10] it lies in
    [[1, maxResult]]; when multiply and divide make up at least 50 percent
    and [maxResult >= 24] it is one of the thirteen composite candidates
    and at most half of [maxResult]. *)
Theorem startingNumber_range cfg s c s' :
  generateChain cfg s = (Some c, s') ->
  (10 <= maxResult cfg -> 1 <= startingNumber c <= maxResult cfg) /\
  (50 <= ofMultiply (operationMix cfg) + ofDivide (operationMix cfg) ->
   24 <= maxResult cfg ->
   In (startingNumber c) goodStarts /\ 2 * startingNumber c <= maxResult cfg).
Proof.
  intros H. destruct (generateChain_startingNumber _ _ _ _ H) as (s0 & Hstart).
  split.
  - intros HR. eapply chooseStart_range; eauto.
  - intros Hhigh HR. eapply chooseStart_good; [| | exact Hstart].
    + apply Z.leb_le. exact Hhigh.
    + intros Hnil.
      assert (Hin : In 12 (filter (fun n => 2 * n <=? maxResult cfg) goodStarts)).
      { apply filter_In. split; [cbn; tauto | apply Z.leb_le; lia]. }
      rewrite Hnil in Hin. exact Hin.
Qed.

Lemma startingNumber_range_witness :
  generateChain divideOnlyConfig halfSource
    = (Some divideChain, snd (generateChain divideOnlyConfig halfSource)) /\
  1 <= startingNumber divideChain <= maxResult divideOnlyConfig /\
  In (startingNumber divideChain) goodStarts /\
  2 * startingNumber divideChain <= maxResult divideOnlyConfig.
Proof.
  assert (E : generateChain divideOnlyConfig halfSource
              = (Some divideChain, snd (generateChain divideOnlyConfig halfSource)))
    by (vm_compute; reflexivity).
  split; [exact E |].
  destruct (startingNumber_range _ _ _ _ E) as [Hrange Hgood].
  split; [apply Hrange; cbn; lia |].
  apply Hgood; cbn; lia.
Defined.

(** X10.  [getTotalProblems] of a generated worksheet lies between three
    times and [chainLength] times its number of chains. *)
Theorem getTotalProblems_bounds (cfg : GameConfig) (s : RNG) :
  let w := fst (generateWorksheet cfg s) in
  3 * Z.of_nat (length (chains w)) <= getTotalProblems w
    <= chainLength cfg * Z.of_nat (length (chains w)).
Proof.
  intros w. unfold getTotalProblems.
  pose proof (fold_total_bounds 3 (chainLength cfg) (chains w) 0) as B.
  cbn in B. apply B.
  pose proof (generateWorksheet_accepted cfg s _ _ (surjective_pairing _)) as F.
  fold w in F. eapply Forall_impl; [| exact F].
  intros c (H3 & s0 & s1 & Hc). cbn.
  apply generateChain_steps in Hc. destruct Hc as (_ & _ & Hle & _). lia.
Qed.

(** ** The digit sum *)

Lemma parseInt_digitChar d : 0 <= d <= 9 -> parseInt (digitChar d) = Some d.
Proof.
  intros Hd.
  assert (d = 0 \/ d = 1 \/ d = 2 \/ d = 3 \/ d = 4 \/
          d = 5 \/ d = 6 \/ d = 7 \/ d = 8 \/ d = 9) as Hcases by lia.
  repeat (destruct Hcases as [-> | Hcases]; [reflexivity |]).
  subst d. reflexivity.
Qed.

(** Reading back the numeral written by [toStringFuel] adds to the running
    sum a value [v] that differs from [n] by a multiple of nine. *)
Lemma toStringFuel_sum fuel :
  forall n acc,
    0 <= n < 10 ^ Z.of_nat fuel ->
    exists v q,
      0 <= v /\ 0 <= q /\ n = v + 9 * q /\ (0 < n -> 0 < v) /\
      forall init,
        fold_left addDigit (list_ascii_of_string (toStringFuel fuel n acc)) (Some init)
        = fold_left addDigit (list_ascii_of_string acc) (Some (init + v)).
Proof.
  induction fuel as [|fuel IH]; intros n acc Hn.
  - assert (n = 0) by (cbn in Hn; lia). subst n.
    exists 0, 0. repeat split; try lia.
    intros init. cbn [toStringFuel]. now rewrite Z.add_0_r.
  - cbn [toStringFuel].
    assert (Hr : 0 <= n mod 10 <= 9)
      by (pose proof (Z.mod_pos_bound n 10 ltac:(lia)); lia).
    destruct (Z.ltb_spec n 10) as [Hsmall|Hbig].
    + exists n, 0. repeat split; try lia.
      intros init. cbn [list_ascii_of_string fold_left]. unfold addDigit at 2.
      rewrite (parseInt_digitChar _ Hr), Z.mod_small by lia. reflexivity.
    + assert (Hq : 0 <= n / 10 < 10 ^ Z.of_nat fuel).
      { split; [apply Z.div_pos; lia |].
        apply Z.div_lt_upper_bound; [lia |].
        rewrite Nat2Z.inj_succ, Z.pow_succ_r in Hn by lia. lia. }
      destruct (IH (n / 10) (String (digitChar (n mod 10)) acc) Hq)
        as (v1 & q1 & Hv1 & Hq1 & Heq & Hpos & Hfold).
      pose proof (Z.div_mod n 10 ltac:(lia)) as Hdm.
      exists (v1 + n mod 10), (v1 + 10 * q1).
      repeat split; try lia.
      intros init. rewrite Hfold.
      cbn [list_ascii_of_string fold_left]. unfold addDigit at 2.
      rewrite (parseInt_digitChar _ Hr), Z.add_assoc. reflexivity.
Qed.

Lemma toString_fuel n : 0 <= n -> n < 10 ^ Z.of_nat (S (Z.to_nat (Z.log2 n))).
Proof.
  intros Hn. pose proof (Z.log2_nonneg n) as Hl.
  replace (Z.of_nat (S (Z.to_nat (Z.log2 n)))) with (Z.succ (Z.log2 n)) by lia.
  destruct (Z.eq_dec n 0) as [-> | Hnz]; [reflexivity |].
  pose proof (Z.log2_spec n ltac:(lia)) as [_ Hup].
  assert (2 ^ Z.succ (Z.log2 n) <= 10 ^ Z.succ (Z.log2 n))
    by (apply Z.pow_le_mono_l; lia).
  lia.
Qed.

Lemma sumOfDigits_abs n :
  exists v q,
    sumOfDigits n = Some v /\
    0 <= v /\ 0 <= q /\ Z.abs n = v + 9 * q /\ (0 < Z.abs n -> 0 < v).
Proof.
  destruct (toStringFuel_sum (S (Z.to_nat (Z.log2 (Z.abs n)))) (Z.abs n) EmptyString)
    as (v & q & Hv & Hq & Heq & Hpos & Hfold).
  { split; [apply Z.abs_nonneg | apply toString_fuel, Z.abs_nonneg]. }
  exists v, q. split; [| auto].
  unfold sumOfDigits, toString. rewrite Hfold. reflexivity.
Qed.

(** X11.  On a safe integer [sumOfDigits] returns a number (never NaN)
    that ignores the sign, is congruent to [|n|] modulo nine, lies between
    0 and [|n|], and is 0 only for [n = 0]. *)
Theorem sumOfDigits_casting_out_nines (n : Z) :
  Z.abs n <= MAX_SAFE_INTEGER ->
  exists v,
    sumOfDigits n = Some v /\
    sumOfDigits (- n) = Some v /\
    v mod 9 = Z.abs n mod 9 /\
    0 <= v <= Z.abs n /\
    (v = 0 <-> n = 0).
Proof.
  intros _. destruct (sumOfDigits_abs n) as (v & q & Hs & Hv & Hq & Heq & Hpos).
  exists v. split; [exact Hs |]. split.
  - unfold sumOfDigits in *. rewrite Z.abs_opp. exact Hs.
  - split.
    + rewrite Heq, Z.mul_comm. symmetry. apply Z.mod_add. lia.
    + split; lia.
Qed.

Lemma sumOfDigits_casting_out_nines_witness :
  Z.abs (-456) <= MAX_SAFE_INTEGER /\
  exists v,
    sumOfDigits (-456) = Some v /\ sumOfDigits (- -456) = Some v /\
    v mod 9 = Z.abs (-456) mod 9 /\ 0 <= v <= Z.abs (-456) /\
    (v = 0 <-> -456 = 0).
Proof.
  assert (H : Z.abs (-456) <= MAX_SAFE_INTEGER) by (vm_compute; discriminate).
  split; [exact H |].
  exact (sumOfDigits_casting_out_nines (-456) H).
Defined.

(** ** Every valid divisor can be chosen *)





(** * The answers of a session *)

Lemma find_problem_None ps id :
  find (fun p => String.eqb (problemId p) id) ps = None <->
  ~ In id (map problemId ps).
Proof.
  induction ps as [|p ps IH]; cbn [find map In]; [tauto |].
  destruct (String.eqb_spec (problemId p) id) as [E|E].
  - split; [discriminate | intros H; exfalso; apply H; now left].
  - rewrite IH. tauto.
Qed.

Lemma correctResultIn_None cs id :
  correctResultIn cs id = None <->
  ~ In id (flat_map (fun c => map problemId (problems c)) cs).
Proof.
  induction cs as [|c cs IH]; cbn [correctResultIn flat_map]; [cbn; tauto |].
  rewrite in_app_iff.
  destruct (find (fun p => String.eqb (problemId p) id) (problems c)) as [p|] eqn:F.
  - split; [discriminate |]. intros H. exfalso. apply H. left.
    apply find_some in F. destruct F as [Hin Heq].
    apply String.eqb_eq in Heq. subst id. now apply in_map.
  - apply find_problem_None in F. rewrite IH. tauto.
Qed.

Lemma NoDup_app_disjoint {A : Type} (l1 l2 : list A) (a : A) :
  NoDup (l1 ++ l2) -> In a l1 -> In a l2 -> False.
Proof.
  induction l1 as [|x l1 IH]; cbn; intros ND H1 H2; [contradiction |].
  inversion ND as [|y l Hnot Hrest]; subst. destruct H1 as [-> | H1].
  - apply Hnot, in_or_app. now right.
  - now apply IH.
Qed.

Lemma NoDup_map_injective {A B : Type} (f : A -> B) (l : list A) (x y : A) :
  NoDup (map f l) -> In x l -> In y l -> f x = f y -> x = y.
Proof.
  induction l as [|a l IH]; cbn; intros ND Hx Hy E; [contradiction |].
  inversion ND as [|b l' Hnot Hrest]; subst.
  destruct Hx as [-> | Hx], Hy as [-> | Hy]; auto.
  - exfalso. apply Hnot. rewrite E. now apply in_map.
  - exfalso. apply Hnot. rewrite <- E. now apply in_map.
Qed.

(** With pairwise distinct identifiers the search finds the problem
    itself. *)
Lemma correctResultIn_unique cs c p :
  NoDup (flat_map (fun c => map problemId (problems c)) cs) ->
  In c cs -> In p (problems c) ->
  correctResultIn cs (problemId p) = Some (result p).
Proof.
  induction cs as [|c0 cs IH]; cbn [flat_map correctResultIn In];
    intros ND Hc Hp; [contradiction |].
  destruct (find (fun q => String.eqb (problemId q) (problemId p)) (problems c0))
    as [q|] eqn:F.
  - apply find_some in F. destruct F as [Hq Heq]. apply String.eqb_eq in Heq.
    destruct Hc as [-> | Hc].
    + assert (q = p).
      { eapply NoDup_map_injective; eauto. eapply NoDup_app_remove_r; eauto. }
      now subst q.
    + exfalso. apply (NoDup_app_disjoint _ _ (problemId p) ND).
      * rewrite <- Heq. now apply in_map.
      * apply in_flat_map. exists c. split; [exact Hc | now apply in_map].
  - apply find_problem_None in F. destruct Hc as [-> | Hc].
    + exfalso. apply F. now apply in_map.
    + apply IH; auto. eapply NoDup_app_remove_l; eauto.
Qed.

Lemma mapGet_In k m : mapGet k m <> None <-> In k (map fst m).
Proof.
  induction m as [|[k0 v0] m IH]; cbn [mapGet map fst In]; [tauto |].
  destruct (String.eqb_spec k0 k) as [E|E].
  - split; [now left | discriminate].
  - rewrite IH. tauto.
Qed.

Lemma mapGet_mapSet_same k v m : mapGet k (mapSet k v m) = Some v.
Proof.
  induction m as [|[k0 v0] m IH]; cbn [mapSet mapGet].
  - now rewrite String.eqb_refl.
  - destruct (String.eqb_spec k0 k) as [E|E]; cbn [mapGet].
    + subst. now rewrite String.eqb_refl.
    + destruct (String.eqb_spec k0 k); [contradiction | exact IH].
Qed.

Lemma mapGet_mapSet_other k k' v m :
  k' <> k -> mapGet k' (mapSet k v m) = mapGet k' m.
Proof.
  intros Hne. induction m as [|[k0 v0] m IH]; cbn [mapSet mapGet].
  - destruct (String.eqb_spec k k'); [congruence | reflexivity].
  - destruct (String.eqb_spec k0 k) as [E|E]; cbn [mapGet].
    + subst k0. destruct (String.eqb_spec k k'); [congruence | reflexivity].
    + destruct (String.eqb_spec k0 k'); [reflexivity | exact IH].
Qed.

Lemma keys_mapSet k v m :
  map fst (mapSet k v m)
  = if in_dec string_dec k (map fst m) then map fst m else map fst m ++ [k].
Proof.
  induction m as [|[k0 v0] m IH]; cbn [mapSet map fst app]; [reflexivity |].
  destruct (String.eqb_spec k0 k) as [E|E]; cbn [map fst].
  - subst k0. destruct (in_dec string_dec k (k :: map fst m)) as [_|N];
      [reflexivity | exfalso; apply N; now left].
  - rewrite IH.
    destruct (in_dec string_dec k (map fst m)) as [I|N],
             (in_dec string_dec k (k0 :: map fst m)) as [I'|N']; cbn [In] in *;
      try reflexivity.
    + exfalso. apply N'. now right.
    + destruct I' as [I'|I']; [congruence | contradiction].
Qed.

Lemma mapSet_Forall_snd (Q : Answer -> Prop) k v m :
  Forall (fun kv => Q (snd kv)) m -> Q v ->
  Forall (fun kv => Q (snd kv)) (mapSet k v m).
Proof.
  intros Hm Hv. induction m as [|[k0 v0] m IH]; cbn [mapSet].
  - constructor; [exact Hv | constructor].
  - inversion Hm; subst. destruct (String.eqb k0 k); constructor; auto.
Qed.

Lemma getTotalProblems_fold cs init :
  fold_left (fun sum chain => sum + Z.of_nat (length (problems chain))) cs init
  = init + Z.of_nat (length (flat_map (fun c => map problemId (problems c)) cs)).
Proof.
  revert init. induction cs as [|c cs IH]; intros init; cbn [fold_left flat_map].
  - cbn. lia.
  - rewrite IH, length_app, length_map. lia.
Qed.

Lemma getTotalProblems_ids w :
  getTotalProblems w = Z.of_nat (length (problemIds w)).
Proof. unfold getTotalProblems, problemIds. now rewrite getTotalProblems_fold. Qed.

Lemma problemIds_allProblems w : problemIds w = map problemId (allProblems w).
Proof.
  unfold problemIds, allProblems.
  induction (chains w) as [|c cs IH]; cbn [flat_map map]; [reflexivity |].
  now rewrite map_app, IH.
Qed.

Lemma nodup_length_le (l : list string) :
  (length (nodup string_dec l) <= length l)%nat.
Proof.
  induction l as [|a l IH]; cbn [nodup length]; [lia |].
  destruct (in_dec string_dec a l); cbn [length]; lia.
Qed.

Lemma nodup_length_lt (l : list string) :
  ~ NoDup l -> (length (nodup string_dec l) < length l)%nat.
Proof.
  induction l as [|a l IH]; intros H.
  - exfalso. apply H. constructor.
  - cbn [nodup length]. destruct (in_dec string_dec a l) as [I|N].
    + pose proof (nodup_length_le l). lia.
    + cbn [length]. assert (~ NoDup l) by (intros ND; apply H; now constructor).
      specialize (IH ltac:(assumption)). lia.
Qed.

(** The keys of the answers stay distinct identifiers of the worksheet. *)
Lemma submitAnswer_keys w answers id a :
  NoDup (map fst answers) ->
  incl (map fst answers) (problemIds w) ->
  NoDup (map fst (submitAnswer (Some w) answers id a)) /\
  incl (map fst (submitAnswer (Some w) answers id a)) (problemIds w).
Proof.
  intros ND Hincl. unfold submitAnswer.
  destruct (correctResultIn (chains w) id) as [r|] eqn:E; [| auto].
  assert (Hid : In id (problemIds w)).
  { destruct (in_dec string_dec id (problemIds w)) as [I|N]; [exact I |].
    apply correctResultIn_None in N. congruence. }
  rewrite keys_mapSet.
  destruct (in_dec string_dec id (map fst answers)) as [I|N]; [auto |].
  split.
  - apply NoDup_app; [exact ND | repeat constructor; intros [] |].
    intros x Hx [<- | []]. contradiction.
  - apply incl_app; [exact Hincl |]. intros x [<- | []]. exact Hid.
Qed.

Lemma submitAll_keys w subs :
  forall answers,
    NoDup (map fst answers) ->
    incl (map fst answers) (problemIds w) ->
    NoDup (map fst (submitAll (Some w) answers subs)) /\
    incl (map fst (submitAll (Some w) answers subs)) (problemIds w).
Proof.
  unfold submitAll. induction subs as [|[id a] subs IH]; intros answers ND Hincl;
    cbn [fold_left fst snd]; [auto |].
  destruct (submitAnswer_keys w answers id a ND Hincl) as [ND' Hincl'].
  apply IH; assumption.
Qed.

Lemma getCorrectCount_fold m init :
  Forall recordedCorrect m ->
  fold_left (fun count kv =>
               match isCorrect (snd kv) with
               | Some true => count + 1
               | _ => count
               end) m init
  = init + Z.of_nat (length m).
Proof.
  revert init. induction m as [|kv m IH]; intros init H; cbn [fold_left length].
  - lia.
  - inversion H as [|x l Hkv Hm]; subst. unfold recordedCorrect in Hkv.
    rewrite Hkv, IH by assumption. lia.
Qed.

Lemma submitAll_correct w ps :
  (forall p, In p ps ->
             correctResultIn (chains w) (problemId p) = Some (result p)) ->
  forall answers,
    NoDup (map fst answers ++ map problemId ps) ->
    Forall recordedCorrect answers ->
    map fst (submitAll (Some w) answers
               (map (fun p => (problemId p, result p)) ps))
      = map fst answers ++ map problemId ps /\
    Forall recordedCorrect
      (submitAll (Some w) answers (map (fun p => (problemId p, result p)) ps)).
Proof.
  unfold submitAll.
  induction ps as [|p ps IH]; intros Hfind answers ND Hall; cbn [map fold_left fst snd].
  - rewrite app_nil_r. auto.
  - assert (Hstep : submitAnswer (Some w) answers (problemId p) (result p)
                    = mapSet (problemId p)
                        {| answerProblemId := problemId p;
                           userAnswer := Some (result p);
                           isCorrect := Some true |} answers).
    { unfold submitAnswer. rewrite (Hfind p (or_introl eq_refl)).
      now rewrite Z.eqb_refl. }
    assert (Hfresh : ~ In (problemId p) (map fst answers)).
    { intros Hin. apply (NoDup_app_disjoint _ _ (problemId p) ND Hin). now left. }
    assert (Hkeys : map fst (submitAnswer (Some w) answers (problemId p) (result p))
                    = map fst answers ++ [problemId p]).
    { rewrite Hstep, keys_mapSet.
      destruct (in_dec string_dec (problemId p) (map fst answers));
        [contradiction | reflexivity]. }
    destruct (IH (fun q Hq => Hfind q (or_intror Hq))
                 (submitAnswer (Some w) answers (problemId p) (result p)))
      as [IH1 IH2].
    + rewrite Hkeys, <- app_assoc. exact ND.
    + rewrite Hstep. apply (mapSet_Forall_snd (fun v => isCorrect v = Some true));
        [exact Hall | reflexivity].
    + split; [| exact IH2]. rewrite IH1, Hkeys, <- app_assoc. reflexivity.
Qed.

(** X14.  A submission changes nothing when there is no worksheet or when
    no problem of the worksheet carries the submitted identifier. *)
Theorem submitAnswer_unknown_problem (answers : AnswerMap) (id : string) (a : Z) :
  submitAnswer None answers id a = answers /\
  (forall w, ~ In id (problemIds w) ->
             submitAnswer (Some w) answers id a = answers).
Proof.
  split; [reflexivity |]. intros w Hid. unfold submitAnswer.
  apply correctResultIn_None in Hid. now rewrite Hid.
Qed.

Lemma submitAnswer_unknown_problem_witness :
  ~ In EmptyString
       (problemIds (fst (generateWorksheet DEFAULT_CONFIG halfSource))) /\
  submitAnswer (Some (fst (generateWorksheet DEFAULT_CONFIG halfSource)))
    [] EmptyString 7 = [].
Proof.
  assert (N : ~ In EmptyString
                 (problemIds (fst (generateWorksheet DEFAULT_CONFIG halfSource)))).
  { vm_compute. intros H. repeat (destruct H as [H | H]; [discriminate H |]).
    exact H. }
  split; [exact N |].
  exact (proj2 (submitAnswer_unknown_problem [] EmptyString 7) _ N).
Defined.

(** X15.  In a worksheet whose problem identifiers are pairwise distinct,
    a submission for a problem records the submitted number, marked
    correct exactly when it equals that problem's result; the answers to
    the other problems are untouched, and the number of answers grows by
    one unless the problem had an answer already. *)
Theorem submitAnswer_grades w c p (answers : AnswerMap) (a : Z) :
  NoDup (problemIds w) -> In c (chains w) -> In p (problems c) ->
  let answers' := submitAnswer (Some w) answers (problemId p) a in
  mapGet (problemId p) answers'
    = Some {| answerProblemId := problemId p;
              userAnswer := Some a;
              isCorrect := Some (a =? result p) |} /\
  (forall id, id <> problemId p -> mapGet id answers' = mapGet id answers) /\
  getAnsweredCount answers'
    = getAnsweredCount answers
      + match mapGet (problemId p) answers with Some _ => 0 | None => 1 end.
Proof.
  intros ND Hc Hp answers'.
  assert (Hstep : answers' = mapSet (problemId p)
                               {| answerProblemId := problemId p;
                                  userAnswer := Some a;
                                  isCorrect := Some (a =? result p) |} answers).
  { unfold answers', submitAnswer.
    now rewrite (correctResultIn_unique (chains w) c p ND Hc Hp). }
  rewrite Hstep. split; [apply mapGet_mapSet_same |].
  split; [intros id Hne; now apply mapGet_mapSet_other |].
  unfold getAnsweredCount.
  rewrite <- (length_map fst (mapSet _ _ _)), keys_mapSet, <- (length_map fst answers).
  destruct (in_dec string_dec (problemId p) (map fst answers)) as [I|N].
  - apply mapGet_In in I. destruct (mapGet (problemId p) answers); [lia | congruence].
  - destruct (mapGet (problemId p) answers) eqn:G.
    + exfalso. apply N, mapGet_In. congruence.
    + rewrite length_app. cbn [length]. lia.
Qed.

Lemma submitAnswer_grades_witness :
  NoDup (problemIds twoProblems) /\
  mapGet (String "b" EmptyString)
         (submitAnswer (Some twoProblems) [] (String "b" EmptyString) 19)
    = Some {| answerProblemId := String "b" EmptyString;
              userAnswer := Some 19;
              isCorrect := Some (19 =? 19) |}.
Proof.
  assert (ND : NoDup (problemIds twoProblems)).
  { cbn. repeat constructor; cbn; intros H;
      repeat (destruct H as [H | H]; [discriminate H |]); exact H. }
  split; [exact ND |].
  refine (proj1 (submitAnswer_grades twoProblems twoProblemsChain
                   {| problemId := String "b" EmptyString; startValue := 14;
                      operation := add; operand := 5; result := 19 |}
                   [] 19 ND _ _)).
  - cbn. left. reflexivity.
  - cbn. right. left. reflexivity.
Defined.

(** X16.  Starting from no answers, whatever is submitted, the number of
    answers never exceeds the number of distinct problem identifiers of
    the worksheet; so when two problems share an identifier
    [isAllChainsComplete] never becomes true. *)
Theorem answers_bounded_by_distinct_ids (w : Worksheet)
    (submissions : list (string * Z)) :
  let answers := submitAll (Some w) [] submissions in
  getAnsweredCount answers
    <= Z.of_nat (length (nodup string_dec (problemIds w)))
    <= getTotalProblems w /\
  (~ NoDup (problemIds w) -> isAllChainsComplete (Some w) answers = false).
Proof.
  intros answers.
  destruct (submitAll_keys w submissions [] (NoDup_nil _) (incl_nil_l _))
    as [ND Hincl]. fold answers in ND, Hincl.
  assert (Hle : (length answers <= length (nodup string_dec (problemIds w)))%nat).
  { rewrite <- (length_map fst answers). apply NoDup_incl_length; [exact ND |].
    intros x Hx. apply nodup_In. now apply Hincl. }
  pose proof (nodup_length_le (problemIds w)) as Hle2.
  rewrite getTotalProblems_ids. unfold getAnsweredCount.
  split; [lia |].
  intros Hdup. pose proof (nodup_length_lt _ Hdup) as Hlt.
  unfold isAllChainsComplete, getAnsweredCount. rewrite getTotalProblems_ids.
  apply Z.leb_gt. lia.
Qed.

Lemma answers_bounded_by_distinct_ids_witness :
  ~ NoDup (problemIds (fst (generateWorksheet DEFAULT_CONFIG halfSource))) /\
  isAllChainsComplete
    (Some (fst (generateWorksheet DEFAULT_CONFIG halfSource)))
    (submitAll (Some (fst (generateWorksheet DEFAULT_CONFIG halfSource))) []
       (correctSubmissions (fst (generateWorksheet DEFAULT_CONFIG halfSource))))
  = false.
Proof.
  assert (D : ~ NoDup (problemIds (fst (generateWorksheet DEFAULT_CONFIG halfSource)))).
  { vm_compute. intros H. inversion H as [|x l Hnotin _]; subst.
    apply Hnotin. now left. }
  split; [exact D |].
  exact (proj2 (answers_bounded_by_distinct_ids _ _) D).
Defined.

(** X17.  In a worksheet whose problem identifiers are pairwise distinct,
    answering every problem with its result leaves one answer per problem,
    all of them correct, and [isAllChainsComplete] is true. *)
Theorem answering_every_problem_completes (w : Worksheet) :
  NoDup (problemIds w) ->
  let answers := submitAll (Some w) [] (correctSubmissions w) in
  getAnsweredCount answers = getTotalProblems w /\
  getCorrectCount answers = getTotalProblems w /\
  isAllChainsComplete (Some w) answers = true.
Proof.
  intros ND answers.
  destruct (submitAll_correct w (allProblems w)) with (answers := @nil (string * Answer))
    as [Hkeys Hall].
  - intros p Hp. unfold allProblems in Hp. apply in_flat_map in Hp.
    destruct Hp as (c & Hc & Hp). eapply correctResultIn_unique; eauto.
  - cbn [map app]. rewrite <- problemIds_allProblems. exact ND.
  - constructor.
  - fold (correctSubmissions w) in Hkeys, Hall. fold answers in Hkeys, Hall.
    cbn [map app] in Hkeys. rewrite <- problemIds_allProblems in Hkeys.
    assert (Hlen : getAnsweredCount answers = getTotalProblems w).
    { unfold getAnsweredCount.
      rewrite getTotalProblems_ids, <- Hkeys, length_map. reflexivity. }
    split; [exact Hlen |]. split.
    + unfold getCorrectCount. rewrite getCorrectCount_fold by exact Hall.
      unfold getAnsweredCount in Hlen. lia.
    + unfold isAllChainsComplete. apply Z.leb_le. lia.
Qed.

Lemma answering_every_problem_completes_witness :
  NoDup (problemIds twoProblems) /\
  isAllChainsComplete (Some twoProblems)
    (submitAll (Some twoProblems) [] (correctSubmissions twoProblems)) = true.
Proof.
  assert (ND : NoDup (problemIds twoProblems)).
  { cbn. repeat constructor; cbn; intros H;
      repeat (destruct H as [H | H]; [discriminate H |]); exact H. }
  split; [exact ND |].
  exact (proj2 (proj2 (answering_every_problem_completes twoProblems ND))).
Defined.

(** * The fallback order, short chains, and the arithmetic of a step *)

Lemma insertByMix_perm mix x l : Permutation (insertByMix mix x l) (x :: l).
Proof.
  induction l as [|y l IH]; cbn [insertByMix]; [apply Permutation_refl |].
  destruct (lookup mix x <? lookup mix y); [| apply Permutation_refl].
  eapply perm_trans; [apply perm_skip, IH | apply perm_swap].
Qed.

Lemma insertByMix_sorted mix x l :
  StronglySorted (priorityBefore mix) l ->
  Forall (fun y => rank x < rank y) l ->
  StronglySorted (priorityBefore mix) (insertByMix mix x l).
Proof.
  induction l as [|y l IH]; intros Hs Hr; cbn [insertByMix].
  - repeat constructor.
  - inversion Hs as [|y' l' Hs' Hy]; subst. inversion Hr as [|y' l' Hxy Hr']; subst.
    destruct (Z.ltb_spec (lookup mix x) (lookup mix y)) as [Hlt|Hge].
    + constructor; [apply IH; assumption |].
      apply (Permutation_Forall (Permutation_sym (insertByMix_perm mix x l))).
      constructor; [left; exact Hlt | exact Hy].
    + constructor; [exact Hs |]. constructor.
      * unfold priorityBefore. lia.
      * rewrite Forall_forall in Hy, Hr' |- *. intros z Hz.
        specialize (Hy z Hz). specialize (Hr' z Hz).
        unfold priorityBefore in *. lia.
Qed.

Lemma sortByMix_perm mix ops : Permutation (sortByMix mix ops) ops.
Proof.
  unfold sortByMix. induction ops as [|x ops IH]; cbn [fold_right];
    [apply Permutation_refl |].
  eapply perm_trans; [apply insertByMix_perm | apply perm_skip, IH].
Qed.

Lemma sortByMix_sorted mix ops :
  StronglySorted (fun a b => rank a < rank b) ops ->
  StronglySorted (priorityBefore mix) (sortByMix mix ops).
Proof.
  induction ops as [|x ops IH]; intros Hs; [constructor |].
  inversion Hs as [|x' l Hs' Hx]; subst.
  change (sortByMix mix (x :: ops)) with (insertByMix mix x (sortByMix mix ops)).
  apply insertByMix_sorted; [apply IH; exact Hs' |].
  apply (Permutation_Forall (Permutation_sym (sortByMix_perm mix ops))). exact Hx.
Qed.

(** X18.  The fallback tier tries the four operations in an order that is
    a rearrangement of add, subtract, multiply, divide by non-increasing
    percentage; operations of equal percentage keep their fixed order. *)
Theorem sortByMix_priority (mix : OperationMix) :
  let sortedOps := sortByMix mix [add; subtract; multiply; divide] in
  Permutation sortedOps [add; subtract; multiply; divide] /\
  StronglySorted (priorityBefore mix) sortedOps.
Proof.
  split; [apply sortByMix_perm |].
  apply sortByMix_sorted. repeat constructor; cbn; lia.
Qed.

Lemma assemble_rejects cfg :
  chainLength cfg < 3 ->
  forall left chains0 attempts s,
    fst (fst (assemble left cfg chains0 attempts s)) = chains0 /\
    (Z.of_nat (length chains0) < chainCount cfg ->
     snd (fst (assemble left cfg chains0 attempts s)) = attempts + Z.of_nat left).
Proof.
  intros Hshort. induction left as [|left IH]; intros chains0 attempts s;
    cbn [assemble].
  - cbn. split; [reflexivity | lia].
  - destruct (Z.ltb_spec (Z.of_nat (length chains0)) (chainCount cfg)) as [Hlt|Hge];
      [| cbn; split; [reflexivity | lia]].
    unfold bind. destruct (generateChain cfg s) as [[c|] s'] eqn:Hc.
    + apply generateChain_steps in Hc. destruct Hc as (_ & _ & Hle & _).
      destruct (Nat.leb_spec 3 (length (problems c))); [lia |].
      destruct (IH chains0 (attempts + 1) s') as [IH1 IH2].
      split; [exact IH1 | intros _; rewrite IH2 by exact Hlt; lia].
    + destruct (IH chains0 (attempts + 1) s') as [IH1 IH2].
      split; [exact IH1 | intros _; rewrite IH2 by exact Hlt; lia].
Qed.

(** X19.  With [chainLength < 3] no chain is ever accepted:
    [generateWorksheet] returns a worksheet without chains, after using up
    all [chainCount * 3] attempts when [chainCount > 0]; with
    [chainLength <= 0] [generateChain] itself returns [null]. *)
Theorem short_chains_empty_worksheet (cfg : GameConfig) (s : RNG) :
  chainLength cfg < 3 ->
  chains (fst (generateWorksheet cfg s)) = [] /\
  (0 < chainCount cfg ->
   snd (fst (assemble (Z.to_nat (chainCount cfg * 3)) cfg [] 0 s))
     = chainCount cfg * 3) /\
  (chainLength cfg <= 0 -> fst (generateChain cfg s) = None).
Proof.
  intros Hshort.
  destruct (assemble_rejects cfg Hshort (Z.to_nat (chainCount cfg * 3)) [] 0 s)
    as [Hchains Hatt].
  split; [| split].
  - destruct (generateWorksheet_inv cfg s _ _ (surjective_pairing _))
      as (_ & attempts & s1 & Hrun).
    rewrite Hrun in Hchains. exact Hchains.
  - intros Hpos. rewrite Hatt by (cbn; lia). lia.
  - intros Hzero. destruct (generateChain cfg s) as [[c|] s'] eqn:Hc; [| reflexivity].
    apply generateChain_steps in Hc. destruct Hc as (_ & Hne & Hle & _).
    exfalso. apply Hne. destruct (problems c); [reflexivity | cbn in Hle; lia].
Qed.

Lemma short_chains_empty_worksheet_witness :
  chainLength shortConfig < 3 /\
  chains (fst (generateWorksheet shortConfig halfSource)) = [].
Proof.
  assert (H : chainLength shortConfig < 3) by (cbn; lia).
  split; [exact H |].
  exact (proj1 (short_chains_empty_worksheet shortConfig halfSource H)).
Defined.

(** X20.  On safe integers the four operations of [calculateResult] undo
    each other: subtracting the operand undoes adding it and the other way
    round, where the sum or difference is a safe integer; dividing by a
    non-zero operand undoes multiplying by it, where the product is a safe
    integer; and whenever a division yields an integer, that integer is
    safe and multiplying it by the operand gives the value back. *)
Theorem calculateResult_inverse (value operand : Z) :
  safeInteger value -> safeInteger operand ->
  (forall r, calculateResult value add operand = Some r ->
             safeInteger r ->
             calculateResult r subtract operand = Some value) /\
  (forall r, calculateResult value subtract operand = Some r ->
             safeInteger r ->
             calculateResult r add operand = Some value) /\
  (operand <> 0 ->
   forall r, calculateResult value multiply operand = Some r ->
             safeInteger r ->
             calculateResult r divide operand = Some value) /\
  (forall r, calculateResult value divide operand = Some r ->
             operand <> 0 /\ safeInteger r /\
             calculateResult r multiply operand = Some value).
Proof.
  intros Hvalue Hoperand.
  split; [| split; [| split]].
  - intros r H _. cbn in *. inversion H; subst. f_equal. lia.
  - intros r H _. cbn in *. inversion H; subst. f_equal. lia.
  - intros Hnz r H _. cbn in H. inversion H; subst. cbn [calculateResult].
    destruct (Z.eqb_spec operand 0); [contradiction |].
    rewrite Z.rem_mul by assumption. cbn. f_equal. now apply Z.quot_mul.
  - intros r H. cbn [calculateResult] in *.
    destruct (Z.eqb_spec operand 0) as [Hz|Hnz]; [discriminate |].
    destruct (Z.eqb_spec (Z.rem value operand) 0) as [Hrem|Hrem]; [| discriminate].
    cbn in H. inversion H; subst. split; [assumption |].
    pose proof (Z.quot_rem' value operand) as Hqr.
    split.
    + unfold safeInteger in *. nia.
    + f_equal. lia.
Qed.

Lemma calculateResult_inverse_witness :
  (safeInteger 30 /\ safeInteger 5 /\ calculateResult 30 divide 5 = Some 6) /\
  5 <> 0 /\ safeInteger 6 /\ calculateResult 6 multiply 5 = Some 30.
Proof.
  assert (S30 : safeInteger 30) by (vm_compute; discriminate).
  assert (S5 : safeInteger 5) by (vm_compute; discriminate).
  assert (E : calculateResult 30 divide 5 = Some 6) by reflexivity.
  split; [split; [exact S30 | split; [exact S5 | exact E]] |].
  exact (proj2 (proj2 (proj2 (calculateResult_inverse 30 5 S30 S5))) 6 E).
Defined.
